(** * Spotify_API.ipynb: the request batching routine [partition_dict]

    The notebook splits the keys of the [tracks] dictionary into batches for
    the audio-features endpoint (at most 100 ids per request):

<<
    import math
    def partition_dict(my_dict,increments):
        my_list = list(my_dict.keys())
        size = len(my_list)
        parts = math.ceil(size/increments)

        partitions = []
        for i in range(0,parts):
            partitions.append(my_list[i*increments:(100+(i*increments))])

        return partitions
>>

    [partition_dict] is the function on values: a dictionary is an
    insertion-ordered association list, Python integers are [Z], the true
    division [size/increments] is an exact rational and a raised exception is
    a constructor of [outcome].  [Float.partition_dict] is the same function
    with the quotient rounded to a double, as CPython computes it; the two
    agree for fewer than [2^53] keys and [increments] below [2^1075].
    [Heap.partition_dict] is the same code over a store of mutable objects,
    where lists are allocated, appended to and referred to by location; it is
    used to state what the call does to objects that existed before it.

    [Notebook] holds the cells around the function: the loops that fill
    [artist_ids], [album_ids], [tracks] and [track_features] from the replies
    of the Web API, and the cell that deletes reissued albums. *)

From Stdlib Require Import ZArith QArith Qround.
From stdpp Require Import base list gmap strings.

Local Open Scope Z_scope.

(** ** Python values and built-ins *)

(** The exceptions the modelled code can raise.  [ZeroDivisionError] comes
    from [size/increments]; [AttributeError] and [TypeError] arise only in the
    store model, when a location does not hold an object of the expected
    class. *)
Inductive exception :=
  | ZeroDivisionError
  | AttributeError
  | TypeError.

(** The result of evaluating a Python expression or call. *)
Inductive outcome (A : Type) :=
  | Return (a : A)
  | Raise (e : exception).
Arguments Return {A} a.
Arguments Raise {A} e.

(** An exception propagates through the rest of the computation. *)
Global Instance outcome_bind : MBind outcome := λ A B f m,
  match m with
  | Return a => f a
  | Raise e => Raise e
  end.

(** A [dict] keeps its items in insertion order and its keys are pairwise
    distinct. *)
Definition dict (K V : Type) := list (K * V).

Definition keys {K V} (my_dict : dict K V) : list K := my_dict.*1.

Definition wf_dict {K V} (my_dict : dict K V) : Prop := NoDup (keys my_dict).

(** [len] of a list, as a Python integer. *)
Definition len {A} (l : list A) : Z := Z.of_nat (length l).

(** [a / b] on integers is true division; dividing by zero raises.  The
    quotient is kept exact here.  CPython rounds it to a double:
    [Float.true_div] below is that quotient and [Float.partition_dict] the
    function with it, and [partition_dict_double] proves that the two
    functions return the same for every dictionary of fewer than [2^53] keys
    and every [increments] below [2^1075].  Outside that range they differ
    ([partition_dict_count_underflow], [true_div_rounds_up]). *)
Definition true_div (a b : Z) : outcome Q :=
  if decide (b = 0) then Raise ZeroDivisionError
  else Return (inject_Z a / inject_Z b)%Q.

(** [math.ceil]. *)
Definition math_ceil (q : Q) : Z := Qceiling q.

(** [range(start, stop)]: the integers [start, start+1, ..., stop-1], none
    when [stop <= start]. *)
Definition range (start stop : Z) : list Z :=
  (λ i, start + Z.of_nat i) <$> seq 0 (Z.to_nat (stop - start)).

(** Index adjustment of a slice bound (step 1): a negative bound counts from
    the end, and the result is clamped to [0 .. len]. *)
Definition adjust_index (i n : Z) : Z :=
  if decide (i < 0) then Z.max (i + n) 0 else Z.min i n.

(** [l[start:stop]]. *)
Definition get_slice {A} (l : list A) (start stop : Z) : list A :=
  let lo := adjust_index start (len l) in
  let hi := adjust_index stop (len l) in
  take (Z.to_nat (hi - lo)) (drop (Z.to_nat lo) l).

(** ** The function *)

Definition partition_dict {K V} (my_dict : dict K V) (increments : Z)
    : outcome (list (list K)) :=
  let my_list := keys my_dict in
  let size := len my_list in
  q ← true_div size increments;
  let parts := math_ceil q in
  let partitions := [] in
  Return (foldl
            (λ partitions i,
               partitions ++
                 [get_slice my_list (i * increments) (100 + i * increments)])
            partitions (range 0 parts)).

(** ** The partitioner of the specification

    Section 4.1 of the specification, word for word: a maximum batch size
    below 1 is rejected with [InvalidArgument]; otherwise there are
    [ceil(N / M)] partitions, and partition [k] holds the identifiers at
    positions [[k*M, min((k+1)*M, N))]. *)
Inductive spec_result (A : Type) :=
  | Partitions (ps : list (list A))
  | InvalidArgument.
Arguments Partitions {A} ps.
Arguments InvalidArgument {A}.

(** The identifiers at positions [[lo, hi)] of a collection. *)
Definition positions {A} (ids : list A) (lo hi : nat) : list A :=
  take (hi - lo) (drop lo ids).

(** [ceil(n / m)] for a natural [n] and a positive [m], on naturals. *)
Definition ceil_quot (n m : nat) : nat := ((n + m - 1) / m)%nat.

Definition spec_partition {A} (identifiers : list A) (max_batch_size : Z)
    : spec_result A :=
  if decide (max_batch_size < 1) then InvalidArgument
  else
    let N := length identifiers in
    let M := Z.to_nat max_batch_size in
    Partitions
      ((λ k, positions identifiers (k * M) (((k + 1) * M) `min` N))%nat
         <$> seq 0 (ceil_quot N M)).

(** ** The quotient as a double

    [size/increments] on two [int]s is computed by CPython as the double
    nearest to the exact quotient (ties to the even significand, gradual
    underflow), and raises [OverflowError] when that is too large for a
    double.  [Float.partition_dict] is the function with this quotient; it
    differs from [partition_dict] only in [true_div]. *)

Module Float.

Inductive exception :=
  | ZeroDivisionError
  | OverflowError.

Inductive outcome (A : Type) :=
  | Return (a : A)
  | Raise (e : exception).
Arguments Return {A} a.
Arguments Raise {A} e.

(** [n/d] rounded to the nearest integer, ties to the even one, for
    [0 <= n] and [0 < d]. *)
Definition round_half_even (n d : Z) : Z :=
  let k := n / d in
  match 2 * (n mod d) ?= d with
  | Lt => k
  | Gt => k + 1
  | Eq => if Z.even k then k else k + 1
  end.

(** The [e] with [2^e <= n/d < 2^(e+1)], for [0 < n] and [0 < d]. *)
Definition exponent (n d : Z) : Z :=
  if decide (d ≤ n) then Z.log2 (n / d)
  else - Z.log2_up ((d + n - 1) / n).

(** The double nearest to [n/d], for [0 < n] and [0 < d], as a pair
    [(m, u)] that stands for [m * 2^u]: 53 bits of significand from the
    leading bit, or from [2^-1022] in the subnormal range. *)
Definition nearest (n d : Z) : Z * Z :=
  let u := Z.max (exponent n d) (-1022) - 52 in
  (round_half_even (n * 2 ^ Z.max (- u) 0) (d * 2 ^ Z.max u 0), u).

Definition value (mu : Z * Z) : Q :=
  (mu.1 * 2 ^ Z.max mu.2 0) # Z.to_pos (2 ^ Z.max (- mu.2) 0).

(** [a / b]. *)
Definition true_div (a b : Z) : outcome Q :=
  if decide (b = 0) then Raise ZeroDivisionError
  else if decide (a = 0) then Return 0%Q
  else
    let x := value (nearest (Z.abs a) (Z.abs b)) in
    if Qle_bool (inject_Z (2 ^ 1024)) x then Raise OverflowError
    else Return (if decide (Z.sgn a = Z.sgn b) then x else Qopp x).

Definition partition_dict {K V} (my_dict : dict K V) (increments : Z)
    : outcome (list (list K)) :=
  let my_list := keys my_dict in
  let size := len my_list in
  match true_div size increments with
  | Raise e => Raise e
  | Return q =>
      let parts := math_ceil q in
      let partitions := [] in
      Return (foldl
                (λ partitions i,
                   partitions ++
                     [get_slice my_list
                        (i * increments) (100 + i * increments)])
                partitions (range 0 parts))
  end.

End Float.

(** A result of [partition_dict] on the exact quotient, read as a result of
    the function on doubles. *)
Definition of_exact {A} (r : outcome A) : Float.outcome A :=
  match r with
  | Return a => Float.Return a
  | Raise ZeroDivisionError => Float.Raise Float.ZeroDivisionError
  | Raise _ => Float.Raise Float.OverflowError
  end.

(** ** The function over a store of objects *)

Module Heap.
Section store.
Context {K V : Type}.

Definition loc := positive.

(** What a list cell holds: an immutable key, or a reference to an
    object. *)
Inductive value :=
  | Key (k : K)
  | Ref (l : loc).

Inductive object :=
  | Dict (items : dict K V)
  | List (elems : list value).

Local Abbreviation heap := (gmap loc object).

(** A computation reads and updates the store and returns or raises; the
    store survives a raised exception. *)
Definition M (A : Type) : Type := heap → outcome A * heap.

Definition ret {A} (a : A) : M A := λ h, (Return a, h).

Definition bind {A B} (m : M A) (f : A → M B) : M B := λ h,
  match m h with
  | (Return a, h') => f a h'
  | (Raise e, h') => (Raise e, h')
  end.

Definition lift {A} (r : outcome A) : M A := λ h, (r, h).

Definition alloc (o : object) : M loc := λ h,
  let l := fresh (dom h) in (Return l, <[l:=o]> h).

(** [list(my_dict.keys())]: a new list object holding the keys. *)
Definition list_of_keys (my_dict : loc) : M loc := λ h,
  match h !! my_dict with
  | Some (Dict items) => alloc (List (Key <$> keys items)) h
  | Some (List _) => (Raise AttributeError, h)
  | None => (Raise TypeError, h)
  end.

(** [len(l)]: the number of elements of a list, of items of a dictionary. *)
Definition list_len (l : loc) : M Z := λ h,
  match h !! l with
  | Some (List elems) => (Return (len elems), h)
  | Some (Dict items) => (Return (len items), h)
  | None => (Raise TypeError, h)
  end.

(** [l[start:stop]]: a new list object. *)
Definition list_slice (l : loc) (start stop : Z) : M loc := λ h,
  match h !! l with
  | Some (List elems) => alloc (List (get_slice elems start stop)) h
  | _ => (Raise TypeError, h)
  end.

(** [l.append(v)]: the list object at [l] is updated in place. *)
Definition list_append (l : loc) (v : value) : M unit := λ h,
  match h !! l with
  | Some (List elems) => (Return (), <[l:=List (elems ++ [v])]> h)
  | _ => (Raise AttributeError, h)
  end.

(** [for x in xs: body(x)]. *)
Fixpoint for_each {A} (xs : list A) (body : A → M unit) : M unit :=
  match xs with
  | [] => ret ()
  | x :: xs' => bind (body x) (λ _, for_each xs' body)
  end.

Definition partition_dict (my_dict : loc) (increments : Z) : M loc :=
  bind (list_of_keys my_dict) (λ my_list,
  bind (list_len my_list) (λ size,
  bind (lift (true_div size increments)) (λ q,
  let parts := math_ceil q in
  bind (alloc (List [])) (λ partitions,
  bind (for_each (range 0 parts) (λ i,
          bind (list_slice my_list (i * increments) (100 + i * increments))
            (λ part, list_append partitions (Ref part))))
    (λ _, ret partitions))))).

(** Reading a result back from the store: the keys of a list of keys, and
    the lists of keys a list of references points to. *)
Definition as_key (v : value) : option K :=
  match v with Key k => Some k | Ref _ => None end.

Definition read_keys (h : heap) (l : loc) : option (list K) :=
  match h !! l with
  | Some (List elems) => mapM as_key elems
  | _ => None
  end.

Definition read_partitions (h : heap) (l : loc) : option (list (list K)) :=
  match h !! l with
  | Some (List elems) =>
      mapM (λ v, match v with Ref p => read_keys h p | Key _ => None end)
        elems
  | _ => None
  end.
End store.

Arguments value : clear implicits.
Arguments object : clear implicits.
Arguments M : clear implicits.
End Heap.

(** ** Inputs used below *)

(** Three tracks of the notebook's [tracks] dictionary: id to (name, album
    id). *)
Definition tracks3 : dict string (string * string) :=
  [ ("3wAI7MIQtTgwcRmwchPZBc",
      ("Go Legend (& Metro Boomin)", "0llyIxX3nDC3hobbGibVZl"));
    ("42XnD59SFcomCJu55EPhqJ",
      ("Big Bidness (& Metro Boomin)", "0llyIxX3nDC3hobbGibVZl"));
    ("7dHui7yOhsoj7HdWSuJTW7",
      ("Who's Stopping Me (& Metro Boomin)", "0llyIxX3nDC3hobbGibVZl"))
  ]%string.

(** The same three ids in the same order, mapped to play counts. *)
Definition plays3 : dict string nat :=
  [ ("3wAI7MIQtTgwcRmwchPZBc", 17%nat);
    ("42XnD59SFcomCJu55EPhqJ", 0%nat);
    ("7dHui7yOhsoj7HdWSuJTW7", 4%nat) ]%string.

(** A dictionary of [n] tracks with ids [0 .. n-1]. *)
Definition numbered (n : nat) : dict nat (string * string) :=
  (λ i, (i, ("track"%string, "album"%string))) <$> seq 0 n.

(** ** The cells around the batching function

    The rest of the notebook is a chain of cells that fill one dictionary
    each ([artist_ids], [album_ids], [tracks], [track_features]) from the
    replies of the Web API, and one cell that deletes reissued albums from
    [album_ids].  The replies are the environment's: [reply n req] is the
    response to the [n]-th call of [requests.get] made by a cell, whose
    argument is [req].  A reply with status 200 carries a body of the shape
    the endpoint documents (its fields are strings, its lists may be empty,
    an entry of [audio_features] may be [null]); bodies of another shape are
    outside the model. *)

Module Notebook.

(** Exceptions: those of [partition_dict], and the two a subscript raises. *)
Inductive error :=
  | Builtin (e : exception)
  | KeyError
  | IndexError.

Inductive res (A : Type) :=
  | Ok (a : A)
  | Err (e : error).
Arguments Ok {A} a.
Arguments Err {A} e.

(** *** Dictionary statements *)

Section dict_ops.
Context {K V : Type} `{EqDecision K}.

(** [d[k] = v]: the value of an existing key is replaced where it stands, a
    new key goes to the end. *)
Fixpoint dict_set (d : dict K V) (k : K) (v : V) : dict K V :=
  match d with
  | [] => [(k, v)]
  | (k', v') :: d' =>
      if decide (k' = k) then (k', v) :: d' else (k', v') :: dict_set d' k v
  end.

(** [del d[k]]: [None] stands for the [KeyError] of a missing key. *)
Fixpoint dict_del (d : dict K V) (k : K) : option (dict K V) :=
  match d with
  | [] => None
  | (k', v') :: d' =>
      if decide (k' = k) then Some d'
      else d'' ← dict_del d' k; Some ((k', v') :: d'')
  end.
End dict_ops.

(** *** Requests and replies *)

Record request := Request {
  url : string;
  headers : list (string * string);
  params : list (string * string)
}.

Record response (J : Type) := Response {
  status_code : Z;
  content : string;
  json : J
}.
Arguments Response {J} _ _ _.
Arguments status_code {J} _.
Arguments content {J} _.
Arguments json {J} _.

(** The [print] statements of the cells. *)
Inductive line :=
  | SearchFailedFor (artist : string)
  | SearchFailedForArtistId (artist_id : string)
  | Content (c : string).

(** The state of a running cell: the dictionary it fills, what it has
    printed and the requests it has made. *)
Record run (D : Type) := Run {
  vars : D;
  stdout : list line;
  sent : list request
}.
Arguments Run {D} _ _ _.
Arguments vars {D} _.
Arguments stdout {D} _.
Arguments sent {D} _.

(** The four request loops have one shape:
<<
    for x in xs:
        response = requests.get(...x...)
        status = response.status_code
        if status == 200:
            json = response.json()
            ...update the dictionary from json...
        else:
            print(...)
>>
    An exception in the update ends the loop with the dictionary as the
    update left it. *)
Fixpoint request_loop {X J D}
    (reply : nat → request → response J)
    (get : X → request)
    (on_200 : X → J → D → res unit * D)
    (on_failure : X → response J → line)
    (xs : list X) (s : run D) : res unit * run D :=
  match xs with
  | [] => (Ok (), s)
  | x :: xs' =>
      let response := reply (length (sent s)) (get x) in
      let sent' := sent s ++ [get x] in
      let status := status_code response in
      if decide (status = 200) then
        match on_200 x (json response) (vars s) with
        | (Ok _, d) =>
            request_loop reply get on_200 on_failure xs'
              (Run d (stdout s) sent')
        | (Err e, d) => (Err e, Run d (stdout s) sent')
        end
      else
        request_loop reply get on_200 on_failure xs'
          (Run (vars s) (stdout s ++ [on_failure x response]) sent')
  end.

(** *** Artists

<<
    artist_ids = {}
    for artist in search:
        params = {'q': artist, 'type': 'artist'}
        response = requests.get('https://api.spotify.com/v1/search',
                                headers=headers, params=params)
        status = response.status_code
        if status == 200:
            json = response.json()
            artist_name = json['artists']['items'][0]['name'].lower()
            artist_id = json['artists']['items'][0]['id']
            artist_ids[artist_id] = artist_name
        else:
            print('Search failed for', artist)
>>
    The body of a reply is [json['artists']['items']]; [lower] is
    [str.lower]. *)
Record artist_object := ArtistObject {
  artist_name : string;
  artist_id : string
}.

Definition search : list string :=
  ["big sean"; "isaiah rashad"; "kendrick lamar"; "j. cole"; "schoolboy q"]%string.

Definition search_request (hdrs : list (string * string)) (artist : string)
    : request :=
  Request "https://api.spotify.com/v1/search" hdrs
    [("q", artist); ("type", "artist")]%string.

Definition first_artist (lower : string → string) (artist : string)
    (items : list artist_object) (artist_ids : dict string string)
    : res unit * dict string string :=
  match items with
  | [] => (Err IndexError, artist_ids)
  | item :: _ =>
      (Ok (), dict_set artist_ids (artist_id item) (lower (artist_name item)))
  end.

Definition find_artists (lower : string → string)
    (reply : nat → request → response (list artist_object))
    (hdrs : list (string * string)) (search : list string)
    : res unit * run (dict string string) :=
  request_loop reply (search_request hdrs) (first_artist lower)
    (λ artist _, SearchFailedFor artist) search (Run [] [] []).

(** *** Albums

<<
    album_ids = {}
    for artist_id in artist_ids:
        params = {'include_groups': 'album', 'country': 'US'}
        response = requests.get(
            'https://api.spotify.com/v1/artists/{}/albums'.format(artist_id),
            headers=headers, params=params)
        albums_list = []
        status = response.status_code
        if status == 200:
            json = response.json()
            for album_object in json['items']:
                if album_object['name'] not in albums_list:
                    albums_list.append(album_object['name'])
                    album_ids[album_object['id']] =
                      (album_object['name'],album_object['artists'][0]['name'])
        else:
            print('Search failed for artist id:', artist_id)
>>
    The body of a reply is [json['items']]; [album_artists] holds the
    [name] of each entry of [album_object['artists']]. *)
Record album_object := AlbumObject {
  album_name : string;
  album_id : string;
  album_artists : list string
}.

Definition albums_request (hdrs : list (string * string)) (artist_id : string)
    : request :=
  Request ("https://api.spotify.com/v1/artists/" +:+ artist_id +:+ "/albums")
    hdrs [("include_groups", "album"); ("country", "US")]%string.

Fixpoint add_albums (items : list album_object) (albums_list : list string)
    (album_ids : dict string (string * string))
    : res unit * dict string (string * string) :=
  match items with
  | [] => (Ok (), album_ids)
  | album_object :: items' =>
      if decide (album_name album_object ∈ albums_list) then
        add_albums items' albums_list album_ids
      else
        let albums_list := albums_list ++ [album_name album_object] in
        match album_artists album_object with
        | [] => (Err IndexError, album_ids)
        | artist :: _ =>
            add_albums items' albums_list
              (dict_set album_ids (album_id album_object)
                 (album_name album_object, artist))
        end
  end.

Definition find_albums
    (reply : nat → request → response (list album_object))
    (hdrs : list (string * string)) (artist_ids : dict string string)
    : res unit * run (dict string (string * string)) :=
  request_loop reply (albums_request hdrs)
    (λ _ items album_ids, add_albums items [] album_ids)
    (λ artist_id _, SearchFailedForArtistId artist_id)
    (keys artist_ids) (Run [] [] []).

(** *** Reissues

<<
    album_deletions = ['Dark Sky Paradise', 'Hall Of Fame', 'Finally Famous',
                       'DAMN. COLLECTORS EDITION.', 'good kid, m.A.A.d city',
                       'Forest Hills Drive: Live from Fayetteville, NC',
                       'Oxymoron']
    key_deletions = []
    # to ensure we don't make more checks then required
    count = 0
    for key,value in album_ids.items():
        if value[0] in album_deletions:
            key_deletions.append(key)
            count += 1
        if count == len(album_deletions):
            break

    for key in key_deletions:
        del album_ids[key]
>> *)
Definition album_deletions : list string :=
  ["Dark Sky Paradise"; "Hall Of Fame"; "Finally Famous";
   "DAMN. COLLECTORS EDITION."; "good kid, m.A.A.d city";
   "Forest Hills Drive: Live from Fayetteville, NC"; "Oxymoron"]%string.

(** The first loop, from the items still to visit. *)
Fixpoint collect_deletions (album_deletions : list string)
    (items : list (string * (string * string)))
    (key_deletions : list string) (count : Z) : list string * Z :=
  match items with
  | [] => (key_deletions, count)
  | (key, value) :: items' =>
      let '(key_deletions, count) :=
        if decide (value.1 ∈ album_deletions)
        then (key_deletions ++ [key], count + 1)
        else (key_deletions, count) in
      if decide (count = len album_deletions) then (key_deletions, count)
      else collect_deletions album_deletions items' key_deletions count
  end.

(** The second loop. *)
Fixpoint delete_keys (key_deletions : list string)
    (album_ids : dict string (string * string))
    : res unit * dict string (string * string) :=
  match key_deletions with
  | [] => (Ok (), album_ids)
  | key :: key_deletions' =>
      match dict_del album_ids key with
      | Some album_ids' => delete_keys key_deletions' album_ids'
      | None => (Err KeyError, album_ids)
      end
  end.

Definition delete_albums (album_deletions : list string)
    (album_ids : dict string (string * string))
    : res unit * dict string (string * string) :=
  let key_deletions := [] in
  let count := 0 in
  let '(key_deletions, count) :=
    collect_deletions album_deletions album_ids key_deletions count in
  delete_keys key_deletions album_ids.

(** *** Tracks

<<
    tracks = {}
    for album_id in album_ids:
        params = {'market': 'US'}
        response = requests.get(
            'https://api.spotify.com/v1/albums/{}/tracks'.format(album_id),
            headers=headers, params=params)
        status = response.status_code
        if status == 200:
            json = response.json()
            for track_object in json['items']:
                tracks[track_object['id']] = (track_object['name'],album_id)
        else:
            print(response.content)
>>
    The body of a reply is [json['items']]. *)
Record track_object := TrackObject {
  track_name : string;
  track_id : string
}.

Definition tracks_request (hdrs : list (string * string)) (album_id : string)
    : request :=
  Request ("https://api.spotify.com/v1/albums/" +:+ album_id +:+ "/tracks")
    hdrs [("market", "US")]%string.

Definition add_tracks (album_id : string) (items : list track_object)
    (tracks : dict string (string * string))
    : res unit * dict string (string * string) :=
  (Ok (),
   foldl (λ tracks track_object,
            dict_set tracks (track_id track_object)
              (track_name track_object, album_id))
     tracks items).

Definition find_tracks
    (reply : nat → request → response (list track_object))
    (hdrs : list (string * string)) {A} (album_ids : dict string A)
    : res unit * run (dict string (string * string)) :=
  request_loop reply (tracks_request hdrs) add_tracks
    (λ _ response, Content (content response))
    (keys album_ids) (Run [] [] []).

(** *** Audio features

<<
    track_features = {}
    for part in partition_dict(tracks,100):
        ids = ''
        for track_id in part:
            #placing all ids into a single string
            ids += track_id + ','
        #remove last comma
        params = {'ids': ids[:-1]}
        response = requests.get('https://api.spotify.com/v1/audio-features',
                               headers=headers, params=params)
        status = response.status_code
        if status == 200:
            json = response.json()
            audio_features = json['audio_features']
            for track_object in audio_features:
                track_features[track_object['id']] = track_object
        else:
            print(response.content)
>>
    The body of a reply is [json['audio_features']], a list whose entries
    are audio-features objects or [null]; [F] is the type of the fields
    of an object besides [id]. *)

(** [s[start:stop]] on a string.  A string is its sequence of bytes here and
    of code points in Python; the two slices agree where the cell uses one,
    to drop a final [','], which is one byte and one code point. *)
Definition str_slice (s : string) (start stop : Z) : string :=
  String.string_of_list_ascii
    (get_slice (String.list_ascii_of_string s) start stop).

Definition join_ids (part : list string) : string :=
  let ids := ""%string in
  let ids := foldl (λ ids track_id, ids +:+ (track_id +:+ ",")) ids part in
  str_slice ids 0 (-1).

Definition features_request (hdrs : list (string * string))
    (part : list string) : request :=
  Request "https://api.spotify.com/v1/audio-features" hdrs
    [("ids"%string, join_ids part)].

Section features.
Context {F : Type}.

Record features_object := FeaturesObject {
  id : string;
  fields : F
}.

(** Subscripting [None] raises [TypeError]. *)
Fixpoint add_features (audio_features : list (option features_object))
    (track_features : dict string features_object)
    : res unit * dict string features_object :=
  match audio_features with
  | [] => (Ok (), track_features)
  | None :: _ => (Err (Builtin TypeError), track_features)
  | Some track_object :: audio_features' =>
      add_features audio_features'
        (dict_set track_features (id track_object) track_object)
  end.

Definition find_features
    (reply : nat → request → response (list (option features_object)))
    (hdrs : list (string * string)) {V} (tracks : dict string V)
    : res unit * run (dict string features_object) :=
  match partition_dict tracks 100 with
  | Return partitions =>
      request_loop reply (features_request hdrs)
        (λ _ audio_features track_features,
           add_features audio_features track_features)
        (λ _ response, Content (content response))
        partitions (Run [] [] [])
  | Raise e => (Err (Builtin e), Run [] [] [])
  end.
End features.
Arguments features_object : clear implicits.
End Notebook.

(** ** Inputs for the cells *)

(** Five albums of the notebook's [album_ids]: id to (name, artist). *)
Definition albums5 : list (string * (string * string)) :=
  [ ("1yZC8xZwv4gsmCZ4p4JWdI",
      ("Forest Hills Drive: Live from Fayetteville, NC", "J. Cole"));
    ("7viNUmZZ8ztn2UB4XB3jIL", ("2014 Forest Hills Drive", "J. Cole"));
    ("0YbpATCIng8Fz2JrfHmEf7", ("Blank Face LP", "ScHoolboy Q"));
    ("7Et3bSTLLqdABO1qCxUplS", ("Oxymoron (Deluxe)", "ScHoolboy Q"));
    ("3WrybrSHu1vSZaQegAZTyn", ("Oxymoron", "ScHoolboy Q"))
  ]%string.

(** Eight albums with listed names: the seven names of [album_deletions]
    and a second album named Oxymoron. *)
Definition reissues8 : list (string * (string * string)) :=
  [ ("1j2x7FJXTgUT0X5hZ8TDXE", ("Dark Sky Paradise", "Big Sean"));
    ("5k2URimhkeCTt0m7xm5mjz", ("Hall Of Fame", "Big Sean"));
    ("2fRLnox9PQ9nos2YYdcYwE", ("Finally Famous", "Big Sean"));
    ("4alcGHjstaALJHHiljfy3H", ("DAMN. COLLECTORS EDITION.", "Kendrick Lamar"));
    ("6PBZN8cbwkqm1ERj2BGXJ1", ("good kid, m.A.A.d city", "Kendrick Lamar"));
    ("1yZC8xZwv4gsmCZ4p4JWdI",
      ("Forest Hills Drive: Live from Fayetteville, NC", "J. Cole"));
    ("3WrybrSHu1vSZaQegAZTyn", ("Oxymoron", "ScHoolboy Q"));
    ("0000000000000000000000", ("Oxymoron", "ScHoolboy Q"))
  ]%string.

(** ** What the cells were sent *)

(** [returned_track reply hdrs album_ids album_id t]: the track object [t]
    is in the reply, of status 200, to the tracks request for the album
    [album_id] of [album_ids]. *)
Definition returned_track
    (reply : nat → Notebook.request
             → Notebook.response (list Notebook.track_object))
    (hdrs : list (string * string)) {A} (album_ids : dict string A)
    (album_id : string) (t : Notebook.track_object) : Prop :=
  ∃ i, keys album_ids !! i = Some album_id ∧
    Notebook.status_code (reply i (Notebook.tracks_request hdrs album_id))
      = 200 ∧
    t ∈ Notebook.json (reply i (Notebook.tracks_request hdrs album_id)).

(** ** Replies used below *)

(** Two albums of the notebook's [album_ids]. *)
Definition albums2 : list (string * (string * string)) :=
  [ ("0llyIxX3nDC3hobbGibVZl",
      ("Double Or Nothing (& Metro Boomin)", "Big Sean"));
    ("0XAIjjN5qxViVS0Y5fYkar", ("I Decided.", "Big Sean")) ]%string.

(** A server that returns two tracks for the first tracks request and
    fails the later ones. *)
Definition tracks_reply (n : nat) (req : Notebook.request)
    : Notebook.response (list Notebook.track_object) :=
  match n with
  | O =>
      Notebook.Response 200 ""
        [ Notebook.TrackObject "Go Legend (& Metro Boomin)"
            "3wAI7MIQtTgwcRmwchPZBc";
          Notebook.TrackObject "Big Bidness (& Metro Boomin)"
            "42XnD59SFcomCJu55EPhqJ" ]%string
  | S _ => Notebook.Response 404 "not found" []
  end.

(** A server that answers every audio-features request with the features
    (here the tempo alone) of the three tracks of [tracks3]. *)
Definition features_reply (n : nat) (req : Notebook.request)
    : Notebook.response (list (option (Notebook.features_object Z))) :=
  Notebook.Response 200 ""
    [ Some (Notebook.FeaturesObject "3wAI7MIQtTgwcRmwchPZBc" 140);
      Some (Notebook.FeaturesObject "42XnD59SFcomCJu55EPhqJ" 132);
      Some (Notebook.FeaturesObject "7dHui7yOhsoj7HdWSuJTW7" 150) ]%string.

(** A server whose audio-features replies hold a [null] for the second
    track. *)
Definition features_reply_null (n : nat) (req : Notebook.request)
    : Notebook.response (list (option (Notebook.features_object Z))) :=
  Notebook.Response 200 ""
    [ Some (Notebook.FeaturesObject "3wAI7MIQtTgwcRmwchPZBc" 140);
      None;
      Some (Notebook.FeaturesObject "7dHui7yOhsoj7HdWSuJTW7" 150) ]%string.

(** The albums of a reply: the explicit and the clean version of one album,
    under two ids, and another album. *)
Definition album_items : list Notebook.album_object :=
  [ Notebook.AlbumObject "I Decided." "0XAIjjN5qxViVS0Y5fYkar" ["Big Sean"];
    Notebook.AlbumObject "I Decided." "1111111111111111111111" ["Big Sean"];
    Notebook.AlbumObject "Dark Sky Paradise" "1j2x7FJXTgUT0X5hZ8TDXE"
      ["Big Sean"] ]%string.

(** A server that finds the first artist searched and nothing for the
    later ones. *)
Definition search_reply (n : nat) (req : Notebook.request)
    : Notebook.response (list Notebook.artist_object) :=
  match n with
  | O =>
      Notebook.Response 200 ""
        [Notebook.ArtistObject "Big Sean" "0c173mlxpT3dSFRgMO8XPh"]%string
  | S _ => Notebook.Response 200 "" []
  end.

(** * Properties *)

(** ** Arithmetic of [math.ceil(size/increments)] *)

(** The ceiling of the exact quotient, in integer arithmetic ([Z.div] rounds
    towards minus infinity, like Python's [//]). *)
Lemma math_ceil_quotient (a b : Z) :
  b ≠ 0 → math_ceil (inject_Z a / inject_Z b) = - (- a / b).
Proof.
  intros Hb. unfold math_ceil, Qceiling, Qfloor, Qdiv, Qinv, inject_Z.
  destruct b as [|p|p]; [done| |]; simpl.
  - by rewrite Z.mul_1_r.
  - f_equal. rewrite <- (Z.div_opp_opp (- a) (Z.neg p)) by done.
    f_equal; lia.
Qed.

(** For a positive divisor the result is the least [k] with [a <= b * k]. *)
Lemma ceil_bounds (a b : Z) :
  0 < b → b * (- (- a / b) - 1) < a ≤ b * - (- a / b).
Proof.
  intros Hb. pose proof (Z.div_mod (- a) b ltac:(lia)) as Hdm.
  pose proof (Z.mod_pos_bound (- a) b Hb). nia.
Qed.

Lemma ceil_unique (a b k : Z) :
  0 < b → b * (k - 1) < a ≤ b * k → - (- a / b) = k.
Proof.
  intros Hb Hk. pose proof (ceil_bounds a b Hb). nia.
Qed.

(** For a negative divisor and a non-negative dividend it is not positive. *)
Lemma ceil_neg_divisor (a b : Z) : 0 ≤ a → b < 0 → - (- a / b) ≤ 0.
Proof.
  intros Ha Hb. rewrite <- (Z.opp_involutive b) at 1.
  rewrite Z.div_opp_opp by lia.
  pose proof (Z.div_pos a (- b)). lia.
Qed.

Lemma ceil_quot_Z (n m : nat) :
  (0 < m)%nat → Z.of_nat (ceil_quot n m) = - (- Z.of_nat n / Z.of_nat m).
Proof.
  intros Hm. symmetry. apply ceil_unique; [lia|]. unfold ceil_quot.
  pose proof (Nat.div_mod (n + m - 1) m ltac:(lia)) as Hdm.
  pose proof (Nat.mod_upper_bound (n + m - 1) m ltac:(lia)). nia.
Qed.

(** ** [range], slices and the loop *)

Lemma range_length (start stop : Z) :
  length (range start stop) = Z.to_nat (stop - start).
Proof. unfold range. by rewrite length_fmap, length_seq. Qed.

Lemma range_nonpos (stop : Z) : stop ≤ 0 → range 0 stop = [].
Proof.
  intros H. unfold range. by replace (Z.to_nat (stop - 0)) with 0%nat by lia.
Qed.

Lemma range_lookup (stop : Z) (k : nat) :
  (k < Z.to_nat stop)%nat → range 0 stop !! k = Some (Z.of_nat k).
Proof.
  intros Hk. unfold range. rewrite list_lookup_fmap, lookup_seq_lt by lia.
  done.
Qed.

Lemma range_elem (stop i : Z) : i ∈ range 0 stop → 0 ≤ i < stop.
Proof.
  unfold range. intros (k & -> & Hk)%list_elem_of_fmap.
  apply elem_of_seq in Hk. lia.
Qed.

Lemma range_of_nat (n : nat) : range 0 (Z.of_nat n) = Z.of_nat <$> seq 0 n.
Proof.
  unfold range. replace (Z.to_nat (Z.of_nat n - 0)) with n by lia.
  by apply list_fmap_ext.
Qed.

(** With bounds [0 <= start <= stop] a slice is the segment of positions
    [[start, min(stop, len))]. *)
Lemma get_slice_positions {A} (l : list A) (start stop : Z) :
  0 ≤ start ≤ stop →
  get_slice l start stop =
    positions l (Z.to_nat start) (Z.to_nat stop `min` length l).
Proof.
  intros H. unfold get_slice, positions, adjust_index, len.
  rewrite !decide_False by lia.
  destruct (decide (Z.of_nat (length l) ≤ start)) as [Hge|Hlt].
  - rewrite !drop_ge by lia. by rewrite !take_nil.
  - f_equal; [lia|f_equal; lia].
Qed.

Lemma positions_length {A} (l : list A) (lo hi : nat) :
  (hi ≤ length l)%nat → length (positions l lo hi) = (hi - lo)%nat.
Proof.
  intros H. unfold positions. rewrite length_take, length_drop. lia.
Qed.

Lemma get_slice_length {A} (l : list A) (start stop : Z) :
  0 ≤ start ≤ stop →
  len (get_slice l start stop) = Z.min stop (len l) - Z.min start (len l).
Proof.
  intros H. rewrite get_slice_positions by done. unfold len.
  rewrite positions_length by lia. lia.
Qed.

Lemma get_slice_fmap {A B} (f : A → B) (l : list A) (start stop : Z) :
  get_slice (f <$> l) start stop = f <$> get_slice l start stop.
Proof.
  unfold get_slice, len. by rewrite length_fmap, fmap_take, fmap_drop.
Qed.

(** Appending in a loop builds the list of the appended items. *)
Lemma foldl_append {A B} (f : B → A) (acc : list A) (xs : list B) :
  foldl (λ acc x, acc ++ [f x]) acc xs = acc ++ (f <$> xs).
Proof.
  revert acc. induction xs as [|x xs IH]; intros acc; simpl.
  - by rewrite app_nil_r.
  - by rewrite IH, <- app_assoc.
Qed.

(** The function in closed form: it raises at [0], and otherwise returns one
    slice [my_list[i*increments : 100 + i*increments]] per
    [i < ceil(size/increments)]. *)
Lemma partition_dict_zero {K V} (my_dict : dict K V) :
  partition_dict my_dict 0 = Raise ZeroDivisionError.
Proof. done. Qed.

Lemma partition_dict_slices {K V} (my_dict : dict K V) (increments : Z) :
  increments ≠ 0 →
  partition_dict my_dict increments =
    Return ((λ i, get_slice (keys my_dict)
                    (i * increments) (100 + i * increments))
              <$> range 0 (- (- len (keys my_dict) / increments))).
Proof.
  intros H. unfold partition_dict, true_div. rewrite decide_False by done.
  simpl. by rewrite foldl_append, math_ceil_quotient.
Qed.

Lemma ceil_quot_upper (n m : nat) : (0 < m → n ≤ ceil_quot n m * m)%nat.
Proof.
  intros Hm. pose proof (ceil_quot_Z n m Hm) as Hc.
  pose proof (ceil_bounds (Z.of_nat n) (Z.of_nat m) ltac:(lia)). nia.
Qed.

Lemma ceil_quot_lower (n m k : nat) :
  (0 < m → k < ceil_quot n m → k * m < n)%nat.
Proof.
  intros Hm Hk. pose proof (ceil_quot_Z n m Hm) as Hc.
  pose proof (ceil_bounds (Z.of_nat n) (Z.of_nat m) ltac:(lia)). nia.
Qed.

Lemma ceil_quot_0 (m : nat) : (0 < m)%nat → ceil_quot 0 m = 0%nat.
Proof.
  intros Hm. unfold ceil_quot. apply Nat.div_small. lia.
Qed.

(** For a batch size of at least 1 the bounds of every slice are
    non-negative, so batch [k] is the segment of positions
    [[k*M, min(k*M + 100, N))]: its start follows [increments], its end is
    100 past the start whatever [increments] is. *)
Lemma partition_dict_positive {K V} (my_dict : dict K V) (increments : Z) :
  1 ≤ increments →
  partition_dict my_dict increments =
    let N := length (keys my_dict) in
    let M := Z.to_nat increments in
    Return ((λ k, positions (keys my_dict) (k * M) ((k * M + 100) `min` N))%nat
              <$> seq 0 (ceil_quot N M)).
Proof.
  intros HM. rewrite partition_dict_slices by lia. simpl. f_equal.
  unfold len. set (M := Z.to_nat increments).
  replace (- (- Z.of_nat (length (keys my_dict)) / increments))
    with (Z.of_nat (ceil_quot (length (keys my_dict)) M))
    by (rewrite ceil_quot_Z by lia; do 2 f_equal; lia).
  rewrite range_of_nat, <- list_fmap_compose.
  apply list_fmap_ext. intros _ k _. simpl.
  rewrite get_slice_positions by lia. f_equal; lia.
Qed.

(** ** The specification's partitioner covers its input *)

Lemma concat_batches {A} (l : list A) (M n : nat) :
  concat ((λ k, take M (drop (k * M) l)) <$> seq 0 n) = take (n * M) l.
Proof.
  induction n as [|n IH]; [done|].
  rewrite seq_S, fmap_app, concat_app, IH. simpl. rewrite app_nil_r.
  rewrite take_take_drop. f_equal. lia.
Qed.

Lemma positions_batch {A} (l : list A) (M k : nat) :
  positions l (k * M) (((k + 1) * M) `min` length l) = take M (drop (k * M) l).
Proof.
  unfold positions. destruct (decide ((k + 1) * M ≤ length l)%nat).
  - f_equal. lia.
  - rewrite !take_ge; [done| |]; rewrite length_drop; lia.
Qed.

Lemma spec_partition_concat {A} (identifiers : list A) (M : Z) :
  1 ≤ M →
  ∃ ps, spec_partition identifiers M = Partitions ps ∧
    concat ps = identifiers.
Proof.
  intros HM. unfold spec_partition. rewrite decide_False by lia.
  eexists; split; [done|].
  erewrite list_fmap_ext by (intros; apply positions_batch).
  rewrite concat_batches, take_ge; [done|].
  apply ceil_quot_upper. lia.
Qed.

(** ** Number of batches *)

(** On the exact quotient, for a batch size [M >= 1]: the number of batches
    is the [k] with [M*(k-1) < N <= M*k] when the dictionary has [N > 0]
    keys, and the result is empty for an empty dictionary. *)
Lemma partition_dict_count {K V} (my_dict : dict K V) (M : Z) :
  1 ≤ M →
  ∃ ps, partition_dict my_dict M = Return ps ∧
    (0 < len (keys my_dict) →
       M * (len ps - 1) < len (keys my_dict) ≤ M * len ps) ∧
    (len (keys my_dict) = 0 → ps = []).
Proof.
  intros HM. rewrite partition_dict_slices by lia. eexists; split; [done|].
  pose proof (ceil_bounds (len (keys my_dict)) M ltac:(lia)) as Hc.
  set (N := len (keys my_dict)) in *. set (c := - (- N / M)) in *.
  assert (len ((λ i, get_slice (keys my_dict) (i * M) (100 + i * M))
                 <$> range 0 c) = Z.max 0 c) as ->.
  { unfold len. rewrite length_fmap, range_length. lia. }
  split.
  - intros HN. assert (0 ≤ c) by nia. lia.
  - intros HN. rewrite range_nonpos; [done|]. nia.
Qed.

(** ** The quotient as a double *)

(** The rounded quotient is within a half of the exact one. *)
Lemma round_half_even_bounds (n d : Z) :
  0 ≤ n → 0 < d →
  (2 * Float.round_half_even n d - 1) * d ≤ 2 * n
    ≤ (2 * Float.round_half_even n d + 1) * d.
Proof.
  intros Hn Hd. unfold Float.round_half_even.
  pose proof (Z.div_mod n d ltac:(lia)) as Hdm.
  pose proof (Z.mod_pos_bound n d Hd) as Hr.
  destruct (Z.compare_spec (2 * (n mod d)) d); [destruct (Z.even _)|..]; nia.
Qed.

(** [2^exponent] is at most the quotient. *)
Lemma exponent_lower (n d : Z) :
  0 < n → 0 < d →
  d * 2 ^ Z.max (Float.exponent n d) 0
    ≤ n * 2 ^ Z.max (- Float.exponent n d) 0.
Proof.
  intros Hn Hd. unfold Float.exponent.
  destruct (decide (d ≤ n)) as [Hle|Hgt].
  - assert (0 < n / d) as Hq by (apply Z.div_str_pos; lia).
    pose proof (Z.log2_nonneg (n / d)) as He.
    pose proof (Z.log2_spec (n / d) Hq) as [Hlo _].
    pose proof (Z.mul_div_le n d Hd).
    rewrite Z.max_l, Z.max_r by lia. change (2 ^ 0) with 1. nia.
  - set (c := (d + n - 1) / n).
    assert (d ≤ n * c) as Hc.
    { unfold c. pose proof (Z.div_mod (d + n - 1) n ltac:(lia)).
      pose proof (Z.mod_pos_bound (d + n - 1) n Hn). nia. }
    assert (1 < c) as Hc1 by nia.
    pose proof (Z.log2_up_spec c Hc1) as [_ Hhi].
    pose proof (Z.log2_up_pos c Hc1) as Hpos.
    rewrite Z.max_r, Z.max_l by lia. rewrite Z.opp_involutive.
    change (2 ^ 0) with 1. nia.
Qed.

(** For a dividend below [2^53] the unit of the nearest double is at most
    1, the double is within half a unit of the quotient, and, for a divisor
    below [2^1075], the divisor is below two units' worth. *)
Lemma nearest_small (a b : Z) :
  0 < a < 2 ^ 53 → 0 < b →
  ∃ m s, 0 < s ∧
    Float.value (Float.nearest a b) = m # Z.to_pos s ∧
    (2 * m - 1) * b ≤ 2 * (a * s) ≤ (2 * m + 1) * b ∧
    (b < 2 ^ 1075 → b < 2 * s).
Proof.
  intros Ha Hb. pose proof (exponent_lower a b ltac:(lia) Hb) as He.
  set (e := Float.exponent a b) in *.
  assert (e ≤ 52) as He52.
  { destruct (decide (e ≤ 52)) as [|Hbig]; [done|]. exfalso.
    rewrite Z.max_l, Z.max_r in He by lia. change (2 ^ 0) with 1 in He.
    pose proof (Z.pow_le_mono_r 2 53 e ltac:(lia) ltac:(lia)). nia. }
  unfold Float.nearest, Float.value. fold e. cbn [fst snd].
  set (u := Z.max e (-1022) - 52).
  assert (u ≤ 0) as Hu by lia.
  rewrite (Z.max_r u 0), (Z.max_l (- u) 0) by lia. change (2 ^ 0) with 1.
  rewrite !Z.mul_1_r.
  assert (0 < 2 ^ (- u)) as Hs by (apply Z.pow_pos_nonneg; lia).
  exists (Float.round_half_even (a * 2 ^ (- u)) b), (2 ^ (- u)).
  split; [done|]. split; [done|]. split.
  { apply round_half_even_bounds; nia. }
  intros Hb1075. unfold u.
  destruct (decide (e < -1022)) as [Hsub|Hnorm].
  - rewrite Z.max_r by lia. change (2 * 2 ^ (- (-1022 - 52))) with (2 ^ 1075).
    done.
  - rewrite Z.max_l by lia.
    replace (2 * 2 ^ (- (e - 52))) with (2 ^ (53 - e))
      by (rewrite <- Z.pow_succ_r by lia; f_equal; lia).
    destruct (decide (0 ≤ e)) as [Hpos|Hneg].
    + rewrite Z.max_l, Z.max_r in He by lia. change (2 ^ 0) with 1 in He.
      assert (2 ^ 53 = 2 ^ (53 - e) * 2 ^ e) as Hsplit
        by (rewrite <- Z.pow_add_r by lia; f_equal; lia).
      assert (0 < 2 ^ e) by (apply Z.pow_pos_nonneg; lia). nia.
    + rewrite Z.max_r, Z.max_l in He by lia. change (2 ^ 0) with 1 in He.
      assert (2 ^ (53 - e) = 2 ^ 53 * 2 ^ (- e)) as ->
        by (rewrite <- Z.pow_add_r by lia; f_equal; lia).
      assert (0 < 2 ^ (- e)) by (apply Z.pow_pos_nonneg; lia). nia.
Qed.

Lemma Qceiling_fraction (m s : Z) :
  0 < s → Qceiling (m # Z.to_pos s) = - (- m / s).
Proof.
  intros Hs. unfold Qceiling, Qfloor. cbn. by rewrite Z2Pos.id.
Qed.

(** The ceiling of the double is the ceiling of the exact quotient, for a
    dividend below [2^53] and a positive divisor below [2^1075]. *)
Lemma math_ceil_nearest (a b : Z) :
  0 < a < 2 ^ 53 → 0 < b < 2 ^ 1075 →
  math_ceil (Float.value (Float.nearest a b)) = - (- a / b).
Proof.
  intros Ha Hb.
  destruct (nearest_small a b Ha ltac:(lia)) as (m & s & Hs & -> & Hm & Hbs).
  specialize (Hbs ltac:(lia)). unfold math_ceil.
  rewrite Qceiling_fraction by done.
  pose proof (ceil_bounds a b ltac:(lia)) as Hk.
  set (k := - (- a / b)) in *.
  apply ceil_unique; [done|]. nia.
Qed.

(** Below [2^53] the double is no larger than the dividend: no overflow. *)
Lemma nearest_no_overflow (a b : Z) :
  0 < a < 2 ^ 53 → 0 < b →
  Qle_bool (inject_Z (2 ^ 1024)) (Float.value (Float.nearest a b)) = false ∧
  0 ≤ Qfloor (Float.value (Float.nearest a b)).
Proof.
  intros Ha Hb.
  destruct (nearest_small a b Ha Hb) as (m & s & Hs & -> & Hm & _).
  assert (0 ≤ m ≤ a * s) as Hma by nia.
  split.
  - apply not_true_is_false. intros Hle%Qle_bool_iff.
    unfold Qle, inject_Z in Hle. cbn [Qnum Qden] in Hle.
    rewrite Z2Pos.id in Hle by done.
    assert (2 ^ 53 < 2 ^ 1024) by (by vm_compute). nia.
  - unfold Qfloor. rewrite Z2Pos.id by done. apply Z.div_pos; lia.
Qed.

(** [size/increments] as a double, for a size below [2^53] and a divisor
    that is not 0 and is below [2^1075]: no exception, and the ceiling is the
    exact one for a positive divisor and not positive for a negative one. *)
Lemma true_div_ceil (a b : Z) :
  0 ≤ a < 2 ^ 53 → b < 2 ^ 1075 → b ≠ 0 →
  ∃ x, Float.true_div a b = Float.Return x ∧
    (0 < b → math_ceil x = - (- a / b)) ∧
    (b < 0 → math_ceil x ≤ 0).
Proof.
  intros Ha Hb Hb0. unfold Float.true_div. rewrite decide_False by done.
  destruct (decide (a = 0)) as [->|Ha0].
  { exists 0%Q. split; [done|]. split; [|done].
    intros Hpos. by rewrite Z.opp_0, Z.div_0_l by lia. }
  destruct (nearest_no_overflow (Z.abs a) (Z.abs b) ltac:(lia) ltac:(lia))
    as [-> Hfloor].
  eexists; split; [done|]. split.
  - intros Hpos. rewrite decide_True by lia.
    rewrite (Z.abs_eq a), (Z.abs_eq b) by lia.
    apply math_ceil_nearest; lia.
  - intros Hneg. rewrite decide_False by lia.
    unfold math_ceil, Qceiling.
    rewrite (Qfloor_comp _ _ (Qopp_involutive _)). lia.
Qed.

(** For a dictionary of fewer than [2^53] keys and [increments] below
    [2^1075], the function on doubles returns, or raises, what the function
    on the exact quotient does. *)
Lemma partition_dict_double {K V} (my_dict : dict K V) (increments : Z) :
  len (keys my_dict) < 2 ^ 53 → increments < 2 ^ 1075 →
  Float.partition_dict my_dict increments
    = of_exact (partition_dict my_dict increments).
Proof.
  intros HN HM. destruct (decide (increments = 0)) as [->|Hne]; [done|].
  rewrite partition_dict_slices by done. unfold Float.partition_dict.
  destruct (true_div_ceil (len (keys my_dict)) increments)
    as (x & -> & Hpos & Hneg); [unfold len in *; lia|done..|].
  cbn [of_exact]. rewrite foldl_append. cbn [app]. do 2 f_equal.
  destruct (decide (0 < increments)) as [Hp|Hn]; [by rewrite Hpos|].
  rewrite !range_nonpos; [done| |by apply Hneg; lia].
  apply ceil_neg_divisor; unfold len; lia.
Qed.

(** Above [2^53] the double can exceed the quotient: [(2^53+3)/1] is the
    double [2^53+4]. *)
Lemma true_div_rounds_up :
  Float.true_div (2 ^ 53 + 3) 1 = Float.Return (inject_Z (2 ^ 53 + 4)).
Proof. by vm_compute. Qed.

(** C4, as stated, fails: [3/10**400] is the double [0.0], its ceiling is
    0, and the three keys come back as no batch at all, where
    [ceil(3/10**400)] is 1. *)
Lemma partition_dict_count_underflow :
  1 ≤ 10 ^ 400 ∧ 0 < len (keys tracks3) ∧
  Float.partition_dict tracks3 (10 ^ 400) = Float.Return [] ∧
  ¬ (10 ^ 400 * (len (@nil (list string)) - 1) < len (keys tracks3)
       ≤ 10 ^ 400 * len (@nil (list string))).
Proof.
  split; [by vm_compute|]. split; [by vm_compute|]. split; [by vm_compute|].
  intros [_ Hle]. vm_compute in Hle. by apply Hle.
Qed.

(** C4, amended. For a dictionary of [N < 2^53] keys and a batch size
    [1 <= M < 2^1075] the call returns, and the number of batches is
    [ceil(N / M)], that is the [k] with [M*(k-1) < N <= M*k], when [N > 0];
    for an empty dictionary the result is the empty list of batches. *)
Theorem partition_dict_count_double {K V} (my_dict : dict K V) (M : Z) :
  len (keys my_dict) < 2 ^ 53 → 1 ≤ M < 2 ^ 1075 →
  ∃ ps, Float.partition_dict my_dict M = Float.Return ps ∧
    (0 < len (keys my_dict) →
       M * (len ps - 1) < len (keys my_dict) ≤ M * len ps) ∧
    (len (keys my_dict) = 0 → ps = []).
Proof.
  intros HN HM. rewrite partition_dict_double by lia.
  destruct (partition_dict_count my_dict M ltac:(lia)) as (ps & -> & Hps).
  by exists ps.
Qed.

Lemma partition_dict_count_double_witness :
  ∃ ps, Float.partition_dict tracks3 2 = Float.Return ps ∧
    (0 < len (keys tracks3) →
       2 * (len ps - 1) < len (keys tracks3) ≤ 2 * len ps) ∧
    (len (keys tracks3) = 0 → ps = []).
Proof.
  apply (partition_dict_count_double tracks3 2).
  - by vm_compute.
  - split; [lia|by vm_compute].
Defined.

(** ** Batches are never empty *)

(** C8. For a non-empty dictionary and a batch size [M >= 1], no batch of
    the result is empty; in particular no empty batch trails the result when
    the number of keys is a multiple of [M]. *)
Theorem partition_dict_no_empty_batch {K V} (my_dict : dict K V) (M : Z) :
  keys my_dict ≠ [] → 1 ≤ M →
  ∃ ps, partition_dict my_dict M = Return ps ∧ Forall (λ p, p ≠ []) ps.
Proof.
  intros Hne HM. rewrite partition_dict_positive by done. simpl.
  eexists; split; [done|].
  apply Forall_fmap, Forall_forall. intros k Hk%elem_of_seq. simpl.
  pose proof (ceil_quot_lower (length (keys my_dict)) (Z.to_nat M) k
                ltac:(lia) ltac:(lia)) as Hlt.
  intros Hnil%(f_equal length). rewrite positions_length in Hnil by lia.
  simpl in Hnil. lia.
Qed.

Lemma partition_dict_no_empty_batch_witness :
  ∃ ps, partition_dict (numbered 200) 100 = Return ps ∧
    Forall (λ p, p ≠ []) ps.
Proof.
  apply (partition_dict_no_empty_batch (numbered 200) 100).
  - vm_compute. discriminate.
  - lia.
Defined.

(** ** Batch sizes that are not positive *)

(** C9. For a strictly negative batch size the call raises nothing and
    returns the empty list of batches, whatever the dictionary holds. *)
Theorem partition_dict_negative {K V} (my_dict : dict K V) (M : Z) :
  M < 0 → partition_dict my_dict M = Return [].
Proof.
  intros HM. rewrite partition_dict_slices by lia.
  rewrite range_nonpos; [done|].
  apply ceil_neg_divisor; unfold len; lia.
Qed.

Lemma partition_dict_negative_witness :
  partition_dict tracks3 (-100) = Return [].
Proof. apply (partition_dict_negative tracks3 (-100)). lia. Defined.

(** C5, as stated, fails: with batch size [-1] the call does not fail, it
    returns the empty list of batches. *)
Lemma partition_dict_nonpositive_not_rejected :
  -1 ≤ 0 ∧ partition_dict tracks3 (-1) = Return [] ∧
  ¬ ∃ e, partition_dict tracks3 (-1) = Raise e.
Proof.
  split; [lia|]. split; [by vm_compute|]. intros [e He]. vm_compute in He.
  discriminate.
Qed.

(** C5, amended. Among the batch sizes [M <= 0] the call fails exactly at
    [M = 0], for every dictionary, and the failure is the
    [ZeroDivisionError] of [size/increments]. *)
Theorem partition_dict_nonpositive {K V} (my_dict : dict K V) (M : Z) :
  M ≤ 0 →
  ((∃ e, partition_dict my_dict M = Raise e) ↔ M = 0) ∧
  (M = 0 → partition_dict my_dict M = Raise ZeroDivisionError).
Proof.
  intros HM. split; [split|].
  - intros [e He]. destruct (decide (M = 0)) as [|Hne]; [done|].
    rewrite partition_dict_negative in He by lia. discriminate.
  - intros ->. by exists ZeroDivisionError.
  - by intros ->.
Qed.

Lemma partition_dict_nonpositive_witness :
  ((∃ e, partition_dict tracks3 0 = Raise e) ↔ 0 = 0) ∧
  (0 = 0 → partition_dict tracks3 0 = Raise ZeroDivisionError).
Proof. apply (partition_dict_nonpositive tracks3 0). lia. Defined.

(** ** The values of the dictionary are not read *)

(** C10. Two dictionaries with the same sequence of keys, whatever their
    values (even of different types), give the same result for the same
    [increments]. *)
Theorem partition_dict_keys_only {K V1 V2}
    (d1 : dict K V1) (d2 : dict K V2) (increments : Z) :
  keys d1 = keys d2 →
  partition_dict d1 increments = partition_dict d2 increments.
Proof. intros Hk. unfold partition_dict. by rewrite Hk. Qed.

Lemma partition_dict_keys_only_witness :
  partition_dict tracks3 2 = partition_dict plays3 2.
Proof. apply (partition_dict_keys_only tracks3 plays3 2). reflexivity. Defined.

(** ** The call site: [partition_dict(tracks,100)] *)

(** With [increments = 100] the literal in the slice bound is
    [increments], and the result is the specification's. *)
Lemma partition_dict_100_spec {K V} (my_dict : dict K V) :
  ∃ ps, partition_dict my_dict 100 = Return ps ∧
    spec_partition (keys my_dict) 100 = Partitions ps.
Proof.
  rewrite partition_dict_positive by lia. cbv zeta.
  unfold spec_partition. rewrite decide_False by lia. cbv zeta.
  change (Z.to_nat 100) with 100%nat.
  eexists; split; [done|]. f_equal. apply list_fmap_ext. intros _ k _.
  f_equal. lia.
Qed.

Lemma partition_dict_100_concat {K V} (my_dict : dict K V) :
  ∃ ps, partition_dict my_dict 100 = Return ps ∧ concat ps = keys my_dict.
Proof.
  destruct (partition_dict_100_spec my_dict) as (ps & Hps & Hspec).
  destruct (spec_partition_concat (keys my_dict) 100 ltac:(lia))
    as (ps' & Hps' & Hcat).
  exists ps. split; [done|]. congruence.
Qed.

Lemma partition_dict_100_sizes {K V} (my_dict : dict K V) :
  length (keys my_dict) = 333%nat →
  ∃ ps, partition_dict my_dict 100 = Return ps ∧
    length <$> ps = [100; 100; 100; 33]%nat.
Proof.
  intros HN. rewrite partition_dict_positive by lia. cbv zeta.
  change (Z.to_nat 100) with 100%nat. rewrite HN.
  change (ceil_quot 333 100) with 4%nat.
  eexists; split; [done|]. cbn [seq fmap list_fmap].
  rewrite !positions_length by (rewrite HN; lia). by vm_compute.
Qed.

(** C6. Called with the literal's own value, [increments = 100], the
    function returns exactly what the specification's partitioner returns on
    the keys; on a dictionary of 333 keys that is 4 batches of sizes
    100, 100, 100 and 33. *)
Theorem partition_dict_100_refines {K V} (my_dict : dict K V) :
  (∃ ps, partition_dict my_dict 100 = Return ps ∧
     spec_partition (keys my_dict) 100 = Partitions ps) ∧
  (length (keys my_dict) = 333%nat →
     ∃ ps, partition_dict my_dict 100 = Return ps ∧
       length ps = 4%nat ∧ length <$> ps = [100; 100; 100; 33]%nat).
Proof.
  split; [apply partition_dict_100_spec|].
  intros (ps & Hps & Hsz)%partition_dict_100_sizes.
  exists ps. split; [done|]. split; [|done].
  apply (f_equal length) in Hsz. by rewrite length_fmap in Hsz.
Qed.

Lemma partition_dict_100_refines_witness :
  length (keys (numbered 333)) = 333%nat ∧
  ∃ ps, partition_dict (numbered 333) 100 = Return ps ∧
    length ps = 4%nat ∧ length <$> ps = [100; 100; 100; 33]%nat.
Proof.
  split; [by vm_compute|].
  apply (partition_dict_100_refines (numbered 333)). by vm_compute.
Defined.

(** ** The literal [100] in the slice bound

    With [increments] other than 100 the batches overlap (below 100) or
    leave keys out (above 100). *)

(** C1 at [partition_dict(tracks3, 2)]: the three keys come back as two
    batches holding four keys in all. *)
Theorem partition_dict_sum_at_2 :
  length (keys tracks3) = 3%nat ∧
  ∃ ps, partition_dict tracks3 2 = Return ps ∧
    sum_list (length <$> ps) = 4%nat.
Proof. split; [done|]. eexists; split; [by vm_compute|done]. Qed.

(** C2 at [partition_dict(tracks3, 2)]: the first batch is the whole key
    list, not the keys at positions [[0, 2)], the third key is in both
    batches, and the batches in order do not spell the key list.  At
    [partition_dict(numbered 101, 101)] the key at position 100 is in no
    batch. *)
Theorem partition_dict_concat_at_2 :
  wf_dict tracks3 ∧ wf_dict (numbered 101) ∧
  (∃ ps, partition_dict tracks3 2 = Return ps ∧
     ps = [ ["3wAI7MIQtTgwcRmwchPZBc"; "42XnD59SFcomCJu55EPhqJ";
             "7dHui7yOhsoj7HdWSuJTW7"];
            ["7dHui7yOhsoj7HdWSuJTW7"] ]%string ∧
     ps !! 0%nat ≠ Some (positions (keys tracks3) 0 2) ∧
     concat ps ≠ keys tracks3) ∧
  (∃ ps, partition_dict (numbered 101) 101 = Return ps ∧
     ps = [seq 0 100] ∧ 100%nat ∈ keys (numbered 101) ∧
     100%nat ∉ concat ps).
Proof.
  split; [|split; [|split]].
  - unfold wf_dict. apply (bool_decide_unpack _). by vm_compute.
  - unfold wf_dict. apply (bool_decide_unpack _). by vm_compute.
  - eexists; split; [by vm_compute|]. split; [done|]. split; by vm_compute.
  - eexists; split; [by vm_compute|]. split; [done|]. split.
    + apply (bool_decide_unpack _). by vm_compute.
    + apply (bool_decide_unpack _). by vm_compute.
Qed.

(** C3 at [partition_dict(tracks3, 2)]: the first batch has 3 keys, more
    than the batch size 2. *)
Theorem partition_dict_size_at_2 :
  (1 ≤ length (keys tracks3))%nat ∧
  ∃ ps p, partition_dict tracks3 2 = Return ps ∧ ps !! 0%nat = Some p ∧
    (2 < length p)%nat.
Proof.
  split; [simpl; lia|]. do 2 eexists. split; [by vm_compute|].
  split; [done|]. simpl. lia.
Qed.

(** ** The call on the store *)

Section heap_properties.
Context {K V : Type}.

Local Abbreviation heap := (gmap Heap.loc (Heap.object K V)).
Local Abbreviation value := (Heap.value K).

Implicit Types (h : heap) (l p : Heap.loc) (ks : list K).

Lemma fresh_unused h : h !! fresh (dom h) = None.
Proof. apply not_elem_of_dom, is_fresh. Qed.

Lemma alloc_fresh (o : Heap.object K V) h :
  ∃ l, Heap.alloc o h = (Return l, <[l:=o]> h) ∧ h !! l = None.
Proof. eexists. split; [done|]. apply fresh_unused. Qed.

Lemma read_keys_list h l ks :
  h !! l = Some (Heap.List (Heap.Key <$> ks)) →
  Heap.read_keys h l = Some ks.
Proof.
  intros Hl. unfold Heap.read_keys. rewrite Hl. apply mapM_Some.
  apply Forall2_fmap_l, Forall_Forall2_diag, Forall_true. done.
Qed.

(** The loop appends to [partitions] one reference per index, each to a
    new list holding that index's slice, and changes no other object that
    was in the store before it. *)
Lemma for_each_slices ks (l1 l2 : Heap.loc) (increments : Z)
    (xs : list Z) h (refs : list value) :
  l1 ≠ l2 →
  h !! l1 = Some (Heap.List (Heap.Key <$> ks)) →
  h !! l2 = Some (Heap.List refs) →
  ∃ h' (ps : list Heap.loc),
    Heap.for_each xs
      (λ i, Heap.bind
              (Heap.list_slice l1 (i * increments) (100 + i * increments))
              (λ part, Heap.list_append l2 (Heap.Ref part))) h
      = (Return (), h') ∧
    h' !! l2 = Some (Heap.List (refs ++ (Heap.Ref <$> ps))) ∧
    (∀ l, is_Some (h !! l) → l ≠ l2 → h' !! l = h !! l) ∧
    Forall2
      (λ p i, h' !! p = Some (Heap.List (Heap.Key <$>
                get_slice ks (i * increments) (100 + i * increments))))
      ps xs.
Proof.
  intros Hne. revert h refs.
  induction xs as [|i xs IH]; intros h refs Hl1 Hl2.
  - exists h, []. simpl. rewrite app_nil_r. by repeat split.
  - simpl. unfold Heap.bind at 1 2.
    unfold Heap.list_slice. rewrite Hl1.
    destruct (alloc_fresh
      (Heap.List (get_slice (Heap.Key <$> ks)
                    (i * increments) (100 + i * increments))) h)
      as (p & -> & Hp).
    assert (p ≠ l1) as Hp1 by congruence.
    assert (p ≠ l2) as Hp2 by congruence.
    unfold Heap.list_append. rewrite lookup_insert_ne, Hl2 by done.
    edestruct (IH (<[l2:=Heap.List (refs ++ [Heap.Ref p])]>
                     (<[p:=Heap.List (get_slice (Heap.Key <$> ks)
                          (i * increments) (100 + i * increments))]> h))
                  (refs ++ [Heap.Ref p]))
      as (h' & ps & Hrun & Hl2' & Hframe & Hps).
    { by rewrite !lookup_insert_ne. }
    { by rewrite lookup_insert_eq. }
    exists h', (p :: ps). split; [done|]. split; [|split].
    + by rewrite Hl2', <- app_assoc.
    + intros l Hl Hll2.
      assert (p ≠ l) by (intros <-; rewrite Hp in Hl; by destruct Hl).
      rewrite Hframe; [by rewrite !lookup_insert_ne| |done].
      by rewrite !lookup_insert_ne.
    + constructor; [|done]. rewrite Hframe; [| |done].
      * rewrite lookup_insert_ne, lookup_insert_eq by done.
        by rewrite get_slice_fmap.
      * by rewrite lookup_insert_ne, lookup_insert_eq.
Qed.

(** C7. Run on any store in which [my_dict] is a dictionary, the call
    leaves every object that was in the store as it was, the dictionary
    included, and what it returns or raises is the value of
    [partition_dict] on the dictionary's items and [increments] alone: the
    rest of the store has no part in it. *)
Theorem partition_dict_pure h (my_dict : Heap.loc) (items : dict K V)
    (increments : Z) :
  h !! my_dict = Some (Heap.Dict items) →
  ∃ r h',
    Heap.partition_dict my_dict increments h = (r, h') ∧
    (∀ l, is_Some (h !! l) → h' !! l = h !! l) ∧
    h' !! my_dict = Some (Heap.Dict items) ∧
    match r with
    | Return l =>
        ∃ ps, partition_dict items increments = Return ps ∧
          Heap.read_partitions h' l = Some ps
    | Raise e => partition_dict items increments = Raise e
    end.
Proof.
  intros Hd. unfold Heap.partition_dict.
  unfold Heap.bind at 1, Heap.list_of_keys. rewrite Hd.
  destruct (alloc_fresh (Heap.List (Heap.Key <$> keys items)) h)
    as (l1 & -> & Hl1).
  set (h1 := <[l1:=Heap.List (Heap.Key <$> keys items)]> h).
  assert (∀ l, is_Some (h !! l) → h1 !! l = h !! l) as Hframe1.
  { intros l Hl. apply lookup_insert_ne. intros <-. rewrite Hl1 in Hl.
    by destruct Hl. }
  unfold Heap.bind at 1, Heap.list_len. unfold h1 at 1.
  rewrite lookup_insert_eq. fold h1.
  replace (len (Heap.Key <$> keys items)) with (len (keys items))
    by (unfold len; by rewrite length_fmap).
  unfold Heap.bind at 1, Heap.lift. unfold partition_dict, true_div.
  destruct (decide (increments = 0)) as [->|Hinc].
  { exists (Raise ZeroDivisionError), h1. split; [done|]. split; [done|].
    split; [|done]. by rewrite Hframe1. }
  simpl. unfold Heap.bind at 1.
  destruct (alloc_fresh (Heap.List []) h1) as (l2 & -> & Hl2).
  assert (l1 ≠ l2) as Hne.
  { intros <-. unfold h1 in Hl2. by rewrite lookup_insert_eq in Hl2. }
  edestruct (for_each_slices (keys items) l1 l2 increments
               (range 0 (math_ceil (inject_Z (len (keys items)) /
                                    inject_Z increments)))
               (<[l2:=Heap.List []]> h1) [] Hne)
    as (h' & ps & Hrun & Hl2' & Hframe & Hps).
  { rewrite lookup_insert_ne by done. unfold h1. by rewrite lookup_insert_eq. }
  { by rewrite lookup_insert_eq. }
  unfold Heap.bind at 1. rewrite Hrun. unfold Heap.ret.
  assert (∀ l, is_Some (h !! l) → h' !! l = h !! l) as Hframe'.
  { intros l Hl. assert (l ≠ l2) as Hll2.
    { intros ->. rewrite <- Hframe1, Hl2 in Hl by done. by destruct Hl. }
    rewrite Hframe; [|rewrite lookup_insert_ne by done; by rewrite Hframe1
                     |done].
    rewrite lookup_insert_ne by done. by apply Hframe1. }
  exists (Return l2), h'. split; [done|]. split; [done|].
  split; [by rewrite Hframe'|].
  eexists; split; [done|]. rewrite foldl_append. simpl.
  unfold Heap.read_partitions. rewrite Hl2'. simpl.
  apply mapM_Some, Forall2_fmap_l, Forall2_fmap_r.
  eapply Forall2_impl; [done|]. intros p i Hp. simpl.
  by apply read_keys_list.
Qed.
End heap_properties.

Lemma partition_dict_pure_witness :
  ∃ r h',
    Heap.partition_dict 1%positive 2 {[1%positive := Heap.Dict tracks3]}
      = (r, h') ∧
    (∀ l, is_Some (({[1%positive := Heap.Dict tracks3]}
                      : gmap Heap.loc (Heap.object _ _)) !! l) →
          h' !! l = ({[1%positive := Heap.Dict tracks3]}
                       : gmap Heap.loc (Heap.object _ _)) !! l) ∧
    h' !! 1%positive = Some (Heap.Dict tracks3) ∧
    match r with
    | Return l =>
        ∃ ps, partition_dict tracks3 2 = Return ps ∧
          Heap.read_partitions h' l = Some ps
    | Raise e => partition_dict tracks3 2 = Raise e
    end.
Proof.
  apply (partition_dict_pure {[1%positive := Heap.Dict tracks3]}
           1%positive tracks3 2).
  reflexivity.
Defined.

(** * The cells of the notebook *)

(** ** Dictionary assignment and deletion *)

Section dict_properties.
Context {K V : Type} `{EqDecision K}.
Implicit Types (d : dict K V) (k : K) (v : V).

Lemma dict_set_keys d k v :
  keys (Notebook.dict_set d k v) =
    if decide (k ∈ keys d) then keys d else keys d ++ [k].
Proof.
  unfold keys. induction d as [|[k' v'] d IH]; [done|].
  cbn [Notebook.dict_set]. destruct (decide (k' = k)) as [->|Hne].
  - rewrite !fmap_cons. cbn [fst]. rewrite decide_True by set_solver. done.
  - rewrite !fmap_cons, IH. cbn [fst]. destruct (decide (k ∈ d.*1)).
    + rewrite decide_True by set_solver. done.
    + rewrite decide_False by set_solver. done.
Qed.

Lemma dict_set_wf d k v : wf_dict d → wf_dict (Notebook.dict_set d k v).
Proof.
  unfold wf_dict. rewrite dict_set_keys. intros Hd.
  destruct (decide (k ∈ keys d)); [done|].
  apply NoDup_app. split; [done|]. split; [set_solver|].
  apply NoDup_singleton.
Qed.

Lemma dict_set_key_elem d k v k' :
  k' ∈ keys (Notebook.dict_set d k v) ↔ k' = k ∨ k' ∈ keys d.
Proof. rewrite dict_set_keys. destruct (decide (k ∈ keys d)); set_solver. Qed.

(** An item of the dictionary after [d[k] = v] is the new one or an old
    one. *)
Lemma dict_set_elem d k v (kv : K * V) :
  kv ∈ Notebook.dict_set d k v → kv = (k, v) ∨ kv ∈ d.
Proof.
  induction d as [|[k' v'] d IH]; simpl.
  - intros ->%list_elem_of_singleton. by left.
  - destruct (decide (k' = k)) as [->|Hne].
    + intros [->|Hin]%elem_of_cons; [by left|right; set_solver].
    + intros [->|Hin]%elem_of_cons; [right; set_solver|].
      destruct (IH Hin) as [->|?]; [by left|right; set_solver].
Qed.

Lemma dict_set_new d k v : (k, v) ∈ Notebook.dict_set d k v.
Proof.
  induction d as [|[k' v'] d IH]; simpl; [set_solver|].
  destruct (decide (k' = k)) as [->|Hne]; set_solver.
Qed.

Lemma filter_other_keys (l : list (K * V)) k :
  k ∉ l.*1 → filter (λ kv, kv.1 ≠ k) l = l.
Proof.
  induction l as [|[k' v'] l IH]; [done|].
  rewrite fmap_cons, filter_cons. cbn [fst]. intros Hk.
  rewrite decide_True by set_solver. rewrite IH by set_solver. done.
Qed.

Lemma dict_del_filter (l : list (K * V)) k :
  wf_dict l → k ∈ keys l →
  Notebook.dict_del l k = Some (filter (λ kv, kv.1 ≠ k) l).
Proof.
  unfold wf_dict, keys. induction l as [|[k' v'] l IH].
  - intros _ ?%elem_of_nil. done.
  - rewrite fmap_cons, filter_cons. cbn [fst Notebook.dict_del].
    intros [Hk' Hd]%NoDup_cons Hin.
    destruct (decide (k' = k)) as [->|Hne].
    + rewrite decide_False by naive_solver.
      by rewrite filter_other_keys.
    + rewrite decide_True by done. rewrite IH; [done..|]. set_solver.
Qed.
End dict_properties.

(** ** Deleting the reissued albums *)

Lemma filter_ext_elem {A} (P Q : A → Prop)
    `{!∀ x, Decision (P x), !∀ x, Decision (Q x)} (l : list A) :
  (∀ x, x ∈ l → P x ↔ Q x) → filter P l = filter Q l.
Proof.
  induction l as [|a l IH]; [done|]. intros HPQ.
  rewrite !filter_cons, IH by set_solver.
  apply decide_ext, HPQ. set_solver.
Qed.

Lemma filter_all {A} (P : A → Prop) `{!∀ x, Decision (P x)} (l : list A) :
  (∀ x, x ∈ l → P x) → filter P l = l.
Proof.
  induction l as [|a l IH]; [done|]. intros HP.
  rewrite filter_cons, decide_True, IH by set_solver. done.
Qed.

(** A key of a well-formed dictionary has one item. *)
Lemma wf_dict_item {K V} (l : list (K * V)) (kv kv' : K * V) :
  wf_dict l → kv ∈ l → kv' ∈ l → kv.1 = kv'.1 → kv = kv'.
Proof.
  unfold wf_dict, keys. induction l as [|x l IH]; [set_solver|].
  rewrite fmap_cons. intros [Hx Hl]%NoDup_cons.
  intros [->|Hin]%elem_of_cons [->|Hin']%elem_of_cons Hk.
  - done.
  - destruct Hx. rewrite Hk. by apply list_elem_of_fmap_2.
  - destruct Hx. rewrite <- Hk. by apply list_elem_of_fmap_2.
  - by apply IH.
Qed.

Lemma wf_dict_filter {K V} (P : K * V → Prop) `{!∀ x, Decision (P x)}
    (l : list (K * V)) :
  wf_dict l → wf_dict (filter P l).
Proof.
  unfold wf_dict, keys. intros Hl.
  apply (sublist_NoDup _ l.*1); [done|].
  apply fmap_sublist, sublist_filter.
Qed.

(** Dropping the items whose keys are the first [n] keys drops the first
    [n] items. *)
Lemma filter_first_keys {K V} `{EqDecision K} (l : list (K * V)) (n : nat) :
  NoDup l.*1 → filter (λ kv, kv.1 ∉ take n l.*1) l = drop n l.
Proof.
  revert n. induction l as [|[k v] l IH]; intros n.
  { by rewrite drop_nil. }
  rewrite fmap_cons. cbn [fst]. intros [Hk Hl]%NoDup_cons.
  destruct n as [|n].
  - rewrite take_0, drop_0. apply filter_all. set_solver.
  - rewrite firstn_cons, filter_cons. cbn [fst drop].
    rewrite decide_False by set_solver. rewrite <- IH by done.
    apply filter_ext_elem. intros [k' v'] Hin. cbn [fst].
    assert (k' ≠ k)
      by (intros ->; apply Hk; by apply (list_elem_of_fmap_2 fst l (k, v'))).
    set_solver.
Qed.

Section delete_albums.
Context (album_deletions : list string).

Local Abbreviation album := (string * (string * string))%type.
Local Abbreviation listed :=
  (λ kv : album, kv.2.1 ∈ album_deletions).
Local Abbreviation first_listed album_ids :=
  (take (length album_deletions) (filter listed album_ids).*1).

Lemma collect_deletions_below (items : list album)
    (key_deletions : list string) (count : Z) :
  0 ≤ count < len album_deletions →
  (Notebook.collect_deletions album_deletions items key_deletions count).1 =
    key_deletions ++
      take (Z.to_nat (len album_deletions - count)) (filter listed items).*1.
Proof.
  revert key_deletions count.
  induction items as [|[key value] items IH]; intros kd count Hc.
  { cbn. by rewrite take_nil, app_nil_r. }
  cbn [Notebook.collect_deletions]. rewrite filter_cons. cbn [fst snd].
  destruct (decide (value.1 ∈ album_deletions)) as [Hin|Hout].
  - rewrite fmap_cons. cbn [fst].
    replace (Z.to_nat (len album_deletions - count))
      with (S (Z.to_nat (len album_deletions - (count + 1)))) by lia.
    rewrite firstn_cons.
    destruct (decide (count + 1 = len album_deletions)) as [Heq|Hne].
    + rewrite Heq, Z.sub_diag. cbn. done.
    + rewrite IH by lia. by rewrite <- app_assoc.
  - rewrite decide_False by lia. by apply IH.
Qed.

Lemma collect_deletions_keys (album_ids : list album) :
  (Notebook.collect_deletions album_deletions album_ids [] 0).1 =
    first_listed album_ids.
Proof.
  destruct (decide (album_deletions = [])) as [Hnil|Hne].
  - rewrite Hnil. destruct album_ids as [|[key value] items]; [done|].
    cbn [Notebook.collect_deletions fst].
    rewrite decide_False by set_solver. done.
  - rewrite collect_deletions_below.
    + simpl. do 2 f_equal. unfold len. lia.
    + unfold len. destruct album_deletions; [done|]. simpl. lia.
Qed.

Lemma delete_keys_filter (key_deletions : list string)
    (album_ids : list album) :
  wf_dict album_ids → NoDup key_deletions →
  key_deletions ⊆ keys album_ids →
  Notebook.delete_keys key_deletions album_ids =
    (Notebook.Ok (), filter (λ kv, kv.1 ∉ key_deletions) album_ids).
Proof.
  revert album_ids.
  induction key_deletions as [|key kd IH]; intros album_ids Hwf Hnd Hsub.
  { cbn. f_equal. symmetry. apply filter_all. set_solver. }
  apply NoDup_cons in Hnd as [Hkey Hnd].
  cbn [Notebook.delete_keys]. rewrite dict_del_filter by set_solver.
  rewrite IH.
  - f_equal. rewrite list_filter_filter. apply list_filter_iff. set_solver.
  - by apply wf_dict_filter.
  - done.
  - intros k Hk. unfold keys. apply list_elem_of_fmap.
    assert (k ∈ keys album_ids) as Hin by set_solver.
    apply list_elem_of_fmap in Hin as (kv & -> & Hin).
    exists kv. split; [done|]. apply list_elem_of_filter. set_solver.
Qed.

(** The cell in closed form: it drops the items whose keys are the keys of
    the first [len(album_deletions)] items with a listed name. *)
Lemma delete_albums_filter (album_ids : list album) :
  wf_dict album_ids →
  Notebook.delete_albums album_deletions album_ids =
    (Notebook.Ok (),
     filter (λ kv, kv.1 ∉ first_listed album_ids) album_ids).
Proof.
  intros Hwf. unfold Notebook.delete_albums.
  pose proof (collect_deletions_keys album_ids) as Hkeys.
  destruct (Notebook.collect_deletions album_deletions album_ids [] 0)
    as [kd count].
  cbn [fst] in Hkeys. subst kd.
  assert (NoDup (filter listed album_ids).*1) as Hnd
    by (by apply (wf_dict_filter listed)).
  apply delete_keys_filter; [done| |].
  - eapply sublist_NoDup; [done|apply sublist_take].
  - intros k (i & Hi%list_elem_of_lookup_2 & _)%elem_of_take.
    apply list_elem_of_fmap in Hi as (kv & -> & Hin).
    apply list_elem_of_filter in Hin as [_ Hin].
    by apply list_elem_of_fmap_2.
Qed.

Lemma listed_key (album_ids : list album) (kv : album) :
  wf_dict album_ids → kv ∈ album_ids →
  kv.1 ∈ (filter listed album_ids).*1 ↔ listed kv.
Proof.
  intros Hwf Hin. split.
  - intros (kv' & Hk & [Hl Hin']%list_elem_of_filter)%list_elem_of_fmap.
    by rewrite (wf_dict_item album_ids kv kv').
  - intros Hl. apply list_elem_of_fmap_2, list_elem_of_filter. done.
Qed.
End delete_albums.

(** X1. On a dictionary with distinct keys the cell raises no [KeyError];
    it only removes items (the rest keep their order), and every album
    whose name is not in [album_deletions] is still there afterwards. *)
Theorem delete_albums_keeps_unlisted (album_deletions : list string)
    (album_ids : list (string * (string * string))) :
  wf_dict album_ids →
  ∃ album_ids' : list (string * (string * string)),
    Notebook.delete_albums album_deletions album_ids
      = (Notebook.Ok (), album_ids') ∧
    album_ids' `sublist_of` album_ids ∧
    filter (λ kv, kv.2.1 ∉ album_deletions) album_ids'
      = filter (λ kv, kv.2.1 ∉ album_deletions) album_ids.
Proof.
  intros Hwf. rewrite delete_albums_filter by done.
  eexists; split; [done|]. split; [apply sublist_filter|].
  rewrite list_filter_filter. apply filter_ext_elem. intros kv Hin.
  split; [naive_solver|]. intros Hout. split; [done|].
  intros Hk%subseteq_take. by apply (listed_key album_deletions) in Hk.
Qed.

Lemma delete_albums_keeps_unlisted_witness :
  ∃ album_ids' : list (string * (string * string)),
    Notebook.delete_albums Notebook.album_deletions albums5
      = (Notebook.Ok (), album_ids') ∧
    album_ids' `sublist_of` albums5 ∧
    filter (λ kv, kv.2.1 ∉ Notebook.album_deletions) album_ids'
      = filter (λ kv, kv.2.1 ∉ Notebook.album_deletions) albums5.
Proof.
  apply (delete_albums_keeps_unlisted Notebook.album_deletions albums5).
  apply (bool_decide_unpack _). by vm_compute.
Defined.

(** X2. When no more albums carry a listed name than [album_deletions] has
    names, the cell removes every album whose name is listed and nothing
    else: what remains is the dictionary without the listed names, in its
    order. *)
Theorem delete_albums_removes_listed (album_deletions : list string)
    (album_ids : list (string * (string * string))) :
  wf_dict album_ids →
  (length (filter (λ kv, kv.2.1 ∈ album_deletions) album_ids)
     ≤ length album_deletions)%nat →
  Notebook.delete_albums album_deletions album_ids =
    (Notebook.Ok (), filter (λ kv, kv.2.1 ∉ album_deletions) album_ids).
Proof.
  intros Hwf Hlen. rewrite delete_albums_filter by done. f_equal.
  rewrite take_ge by (by rewrite length_fmap).
  apply filter_ext_elem. intros kv Hin.
  by rewrite (listed_key album_deletions).
Qed.

Lemma delete_albums_removes_listed_witness :
  Notebook.delete_albums Notebook.album_deletions albums5 =
    (Notebook.Ok (),
     filter (λ kv, kv.2.1 ∉ Notebook.album_deletions) albums5).
Proof.
  apply (delete_albums_removes_listed Notebook.album_deletions albums5).
  - apply (bool_decide_unpack _). by vm_compute.
  - vm_compute. lia.
Defined.

(** X3. The cell stops looking after [len(album_deletions)] albums with a
    listed name: those first ones, in dictionary order, are removed, and
    any further album with a listed name stays in [album_ids]. *)
Theorem delete_albums_first_listed (album_deletions : list string)
    (album_ids : list (string * (string * string))) :
  wf_dict album_ids →
  ∃ album_ids' : list (string * (string * string)),
    Notebook.delete_albums album_deletions album_ids
      = (Notebook.Ok (), album_ids') ∧
    filter (λ kv, kv.2.1 ∈ album_deletions) album_ids'
      = drop (length album_deletions)
          (filter (λ kv, kv.2.1 ∈ album_deletions) album_ids).
Proof.
  intros Hwf. rewrite delete_albums_filter by done.
  eexists; split; [done|].
  rewrite list_filter_filter.
  rewrite <- filter_first_keys
    by (by apply (wf_dict_filter (λ kv, kv.2.1 ∈ album_deletions))).
  rewrite list_filter_filter. apply list_filter_iff. naive_solver.
Qed.

Lemma delete_albums_first_listed_witness :
  ∃ album_ids' : list (string * (string * string)),
    Notebook.delete_albums Notebook.album_deletions reissues8
      = (Notebook.Ok (), album_ids') ∧
    filter (λ kv, kv.2.1 ∈ Notebook.album_deletions) album_ids'
      = drop (length Notebook.album_deletions)
          (filter (λ kv, kv.2.1 ∈ Notebook.album_deletions) reissues8).
Proof.
  apply (delete_albums_first_listed Notebook.album_deletions reissues8).
  apply (bool_decide_unpack _). by vm_compute.
Defined.

(** ** The [ids] parameter of an audio-features request *)

Lemma string_app_cons (a : Ascii.ascii) (s1 s2 : string) :
  String a s1 +:+ s2 = String a (s1 +:+ s2).
Proof. done. Qed.

Lemma string_app_nil_r (s : string) : s +:+ "" = s.
Proof.
  induction s as [|a s IH]; [done|]. by rewrite string_app_cons, IH.
Qed.

Lemma string_app_assoc (s1 s2 s3 : string) :
  s1 +:+ (s2 +:+ s3) = (s1 +:+ s2) +:+ s3.
Proof.
  induction s1 as [|a s1 IH]; [done|]. by rewrite !string_app_cons, IH.
Qed.

Lemma list_ascii_of_string_app (s1 s2 : string) :
  String.list_ascii_of_string (s1 +:+ s2) =
    String.list_ascii_of_string s1 ++ String.list_ascii_of_string s2.
Proof.
  induction s1 as [|a s1 IH]; [done|]. rewrite string_app_cons. cbn.
  by rewrite IH.
Qed.

(** Dropping a final comma. *)
Lemma str_slice_drop_comma (s : string) :
  Notebook.str_slice (s +:+ ",") 0 (-1) = s.
Proof.
  unfold Notebook.str_slice. rewrite list_ascii_of_string_app.
  set (l := String.list_ascii_of_string s).
  assert (get_slice (l ++ String.list_ascii_of_string ",") 0 (-1) = l) as ->.
  { unfold get_slice, adjust_index, len. rewrite length_app. cbn [length].
    rewrite (decide_False (P := 0 < 0)), (decide_True (P := -1 < 0)) by lia.
    replace (Z.to_nat (Z.min 0 _)) with 0%nat by lia. rewrite drop_0.
    apply take_app_length'. cbn. lia. }
  apply String.string_of_list_ascii_of_string.
Qed.

(** The inner loop appends [track_id + ','] for each id; after a first id
    that is the comma-joined ids and a final comma. *)
Lemma ids_loop (track_id : string) (part : list string) (ids : string) :
  foldl (λ ids track_id, ids +:+ (track_id +:+ ",")) ids (track_id :: part) =
    (ids +:+ String.concat "," (track_id :: part)) +:+ ",".
Proof.
  revert track_id ids. induction part as [|next part IH]; intros track_id ids.
  - cbn. by rewrite string_app_assoc.
  - change (foldl ?f ids (track_id :: next :: part))
      with (foldl f (ids +:+ (track_id +:+ ",")) (next :: part)).
    rewrite IH. cbn [String.concat]. f_equal.
    by rewrite !string_app_assoc.
Qed.

(** X4. The [ids] parameter built for a batch (append every id followed by
    a comma, then drop the last character) is the ids joined by commas:
    no trailing comma, and the empty string for an empty batch. *)
Theorem join_ids_concat (part : list string) :
  Notebook.join_ids part = String.concat "," part.
Proof.
  unfold Notebook.join_ids. destruct part as [|track_id part]; [done|].
  rewrite ids_loop. apply str_slice_drop_comma.
Qed.

(** ** The request loop *)

Section request_loop.
Context {X J D : Type}.
Context (reply : nat → Notebook.request → Notebook.response J).
Context (get : X → Notebook.request).
Context (on_200 : X → J → D → Notebook.res unit * D).
Context (on_failure : X → Notebook.response J → Notebook.line).

Local Abbreviation loop :=
  (Notebook.request_loop reply get on_200 on_failure).

(** A loop over [xs ++ ys] is the loop over [xs] followed, unless it
    raised, by the loop over [ys]. *)
Lemma request_loop_app (xs ys : list X) (s : Notebook.run D) :
  loop (xs ++ ys) s =
    match loop xs s with
    | (Notebook.Ok _, s') => loop ys s'
    | (Notebook.Err e, s') => (Notebook.Err e, s')
    end.
Proof.
  revert s. induction xs as [|x xs IH]; intros s; [done|].
  cbn [app Notebook.request_loop].
  destruct (decide (_ = 200)) as [H200|Hfail]; [|apply IH].
  destruct (on_200 _ _ _) as [[[]|e] d]; [apply IH|done].
Qed.

(** While no update raises, the loop goes through the whole list whatever
    the status codes are: it sends one request per element, in order, and
    prints one line per reply whose status is not 200. *)
Lemma request_loop_total (xs : list X) (s : Notebook.run D) :
  (∀ i x d, xs !! i = Some x →
     Notebook.status_code (reply (length (Notebook.sent s) + i) (get x)) = 200 →
     ∃ d', on_200 x (Notebook.json
                       (reply (length (Notebook.sent s) + i) (get x))) d
           = (Notebook.Ok (), d')) →
  ∃ s', loop xs s = (Notebook.Ok (), s') ∧
    Notebook.sent s' = Notebook.sent s ++ (get <$> xs) ∧
    Notebook.stdout s' =
      Notebook.stdout s ++
        omap (λ xr : X * Notebook.response J,
                if decide (Notebook.status_code xr.2 = 200) then None
                else Some (on_failure xr.1 xr.2))
          (imap (λ i x, (x, reply (length (Notebook.sent s) + i) (get x)))
             xs).
Proof.
  revert s. induction xs as [|x xs IH]; intros s Hok.
  { exists s. cbn. by rewrite !app_nil_r. }
  cbn [Notebook.request_loop]. rewrite imap_cons. cbn [omap list_omap fst snd].
  rewrite Nat.add_0_r.
  set (r := reply (length (Notebook.sent s)) (get x)).
  assert (∀ s1 : Notebook.run D,
    Notebook.sent s1 = Notebook.sent s ++ [get x] →
    ∃ s', loop xs s1 = (Notebook.Ok (), s') ∧
      Notebook.sent s' = Notebook.sent s ++ (get <$> x :: xs) ∧
      Notebook.stdout s' =
        Notebook.stdout s1 ++
          omap (λ xr : X * Notebook.response J,
                  if decide (Notebook.status_code xr.2 = 200) then None
                  else Some (on_failure xr.1 xr.2))
            (imap ((λ i x, (x, reply (length (Notebook.sent s) + i) (get x)))
                     ∘ S) xs)) as Hrest.
  { intros s1 Hs1. destruct (IH s1) as (s' & Hrun & Hsent & Hout).
    - intros i y d Hy. rewrite Hs1, length_app. cbn [length].
      replace (length (Notebook.sent s) + 1 + i)%nat
        with (length (Notebook.sent s) + S i)%nat by lia.
      by apply (Hok (S i)).
    - exists s'. split; [done|]. split.
      + rewrite Hsent, Hs1, fmap_cons, <- app_assoc. done.
      + rewrite Hout. do 2 f_equal. apply imap_ext. intros i y _.
        cbn. rewrite Hs1, length_app. cbn [length]. do 2 f_equal. lia. }
  destruct (decide (Notebook.status_code r = 200)) as [H200|Hfail].
  - destruct (Hok 0%nat x (Notebook.vars s) eq_refl) as [d' Hd'].
    { by rewrite Nat.add_0_r. }
    rewrite Nat.add_0_r in Hd'. fold r in Hd'. rewrite Hd'.
    apply (Hrest (Notebook.Run d' (Notebook.stdout s)
                    (Notebook.sent s ++ [get x])) eq_refl).
  - destruct (Hrest (Notebook.Run (Notebook.vars s)
                       (Notebook.stdout s ++ [on_failure x r])
                       (Notebook.sent s ++ [get x])) eq_refl)
      as (s' & Hrun & Hsent & Hout).
    exists s'. split; [done|]. split; [done|].
    rewrite Hout. cbn [Notebook.stdout]. by rewrite <- app_assoc.
Qed.

(** A property of the dictionary that every step keeps, indexed by the
    number of elements gone through, holds at the end of a loop that did not
    raise. *)
Lemma request_loop_invariant (I : nat → D → Prop) (xs : list X)
    (s s' : Notebook.run D) :
  loop xs s = (Notebook.Ok (), s') →
  I 0%nat (Notebook.vars s) →
  (∀ i x d, xs !! i = Some x → I i d →
     let r := reply (length (Notebook.sent s) + i) (get x) in
     if decide (Notebook.status_code r = 200)
     then ∀ d', on_200 x (Notebook.json r) d = (Notebook.Ok (), d') →
                I (S i) d'
     else I (S i) d) →
  I (length xs) (Notebook.vars s').
Proof.
  revert I s. induction xs as [|x xs IH]; intros I s Hrun H0 Hstep.
  { cbn in Hrun. by injection Hrun as <-. }
  cbn [Notebook.request_loop] in Hrun.
  pose proof (Hstep 0%nat x (Notebook.vars s) eq_refl H0) as Hx.
  cbn zeta in Hx. rewrite Nat.add_0_r in Hx.
  set (r := reply (length (Notebook.sent s)) (get x)) in *.
  assert (∀ s1 : Notebook.run D,
    Notebook.sent s1 = Notebook.sent s ++ [get x] →
    I 1%nat (Notebook.vars s1) →
    loop xs s1 = (Notebook.Ok (), s') →
    I (length (x :: xs)) (Notebook.vars s')) as Hrest.
  { intros s1 Hs1 H1 Hrun1.
    apply (IH (λ i, I (S i)) s1 Hrun1 H1).
    intros i y d Hy Hi. rewrite Hs1, length_app. cbn [length].
    replace (length (Notebook.sent s) + 1 + i)%nat
      with (length (Notebook.sent s) + S i)%nat by lia.
    by apply (Hstep (S i)). }
  destruct (decide (Notebook.status_code r = 200)) as [H200|Hfail].
  - destruct (on_200 x (Notebook.json r) (Notebook.vars s))
      as [[[]|e] d'] eqn:Hd'; [|done].
    apply (Hrest (Notebook.Run d' (Notebook.stdout s)
                    (Notebook.sent s ++ [get x])) eq_refl);
      [by apply Hx|done].
  - apply (Hrest (Notebook.Run (Notebook.vars s)
                    (Notebook.stdout s ++ [on_failure x r])
                    (Notebook.sent s ++ [get x])) eq_refl);
      done.
Qed.

(** The first update that raises ends the loop: the elements after it are
    not requested. *)
Lemma request_loop_raises (pre post : list X) (x : X) (e : Notebook.error)
    (s : Notebook.run D) :
  (∀ i y d, pre !! i = Some y →
     Notebook.status_code (reply (length (Notebook.sent s) + i) (get y)) = 200 →
     ∃ d', on_200 y (Notebook.json
                       (reply (length (Notebook.sent s) + i) (get y))) d
           = (Notebook.Ok (), d')) →
  let r := reply (length (Notebook.sent s) + length pre) (get x) in
  Notebook.status_code r = 200 →
  (∀ d, ∃ d', on_200 x (Notebook.json r) d = (Notebook.Err e, d')) →
  ∃ s', loop (pre ++ x :: post) s = (Notebook.Err e, s') ∧
    Notebook.sent s' = Notebook.sent s ++ (get <$> pre) ++ [get x].
Proof.
  intros Hpre r H200 Hx. rewrite request_loop_app.
  destruct (request_loop_total pre s Hpre) as (s1 & -> & Hsent & _).
  cbn [Notebook.request_loop].
  replace (length (Notebook.sent s1))
    with (length (Notebook.sent s) + length pre)%nat
    by (by rewrite Hsent, length_app, length_fmap).
  fold r. rewrite decide_True by done.
  destruct (Hx (Notebook.vars s1)) as [d' ->].
  eexists; split; [done|]. cbn. by rewrite Hsent, <- app_assoc.
Qed.
End request_loop.

(** ** Tracks *)

Lemma add_tracks_ok (album_id : string) (items : list Notebook.track_object)
    (tracks : dict string (string * string)) :
  ∃ tracks', Notebook.add_tracks album_id items tracks
             = (Notebook.Ok (), tracks').
Proof. by eexists. Qed.

Lemma add_tracks_wf (album_id : string) (items : list Notebook.track_object)
    (tracks tracks' : dict string (string * string)) :
  Notebook.add_tracks album_id items tracks = (Notebook.Ok (), tracks') →
  wf_dict tracks → wf_dict tracks'.
Proof.
  unfold Notebook.add_tracks. intros [= <-]. revert tracks.
  induction items as [|t items IH]; intros tracks Hwf; [done|].
  cbn [foldl]. by apply IH, dict_set_wf.
Qed.

Lemma add_tracks_keys (album_id : string) (items : list Notebook.track_object)
    (tracks tracks' : dict string (string * string)) (tid : string) :
  Notebook.add_tracks album_id items tracks = (Notebook.Ok (), tracks') →
  tid ∈ keys tracks' ↔
    tid ∈ keys tracks ∨ ∃ t, t ∈ items ∧ Notebook.track_id t = tid.
Proof.
  unfold Notebook.add_tracks. intros [= <-]. revert tracks.
  induction items as [|t items IH]; intros tracks.
  { cbn. set_solver. }
  cbn [foldl]. rewrite IH, dict_set_key_elem. set_solver.
Qed.

Lemma add_tracks_elem (album_id : string) (items : list Notebook.track_object)
    (tracks tracks' : dict string (string * string))
    (kv : string * (string * string)) :
  Notebook.add_tracks album_id items tracks = (Notebook.Ok (), tracks') →
  kv ∈ tracks' →
  kv ∈ tracks ∨
  ∃ t, t ∈ items ∧
    kv = (Notebook.track_id t, (Notebook.track_name t, album_id)).
Proof.
  unfold Notebook.add_tracks. intros [= <-]. revert tracks.
  induction items as [|t items IH]; intros tracks; [by left|].
  cbn [foldl]. intros [[->|Hin]%dict_set_elem|(t' & Hin & ->)]%IH.
  - right. exists t. set_solver.
  - by left.
  - right. exists t'. set_solver.
Qed.

(** The lines printed for the replies that are not 200. *)
Lemma failure_lines {X J} (f : nat → X → Notebook.response J) (xs : list X) :
  omap (λ xr : X * Notebook.response J,
          if decide (Notebook.status_code xr.2 = 200) then None
          else Some (Notebook.Content (Notebook.content xr.2)))
    (imap (λ i x, (x, f i x)) xs) =
  (λ r, Notebook.Content (Notebook.content r))
    <$> filter (λ r, Notebook.status_code r ≠ 200) (imap f xs).
Proof.
  revert f. induction xs as [|x xs IH]; intros f; [done|].
  rewrite !imap_cons, filter_cons. cbn [omap list_omap fst snd].
  specialize (IH (f ∘ S)). cbn [omap] in IH.
  destruct (decide (Notebook.status_code (f 0%nat x) = 200)) as [H200|Hne].
  - rewrite decide_False by naive_solver. apply IH.
  - rewrite decide_True by done. rewrite fmap_cons. f_equal. apply IH.
Qed.

Section find_tracks.
Context (reply : nat → Notebook.request
                 → Notebook.response (list Notebook.track_object)).
Context (hdrs : list (string * string)).
Context {A : Type} (album_ids : dict string A).

Local Abbreviation reply_for i album_id :=
  (reply i (Notebook.tracks_request hdrs album_id)).

(** The cell in full: it does not raise, and its dictionary holds the
    returned tracks, each under its id. *)
Lemma find_tracks_spec :
  ∃ s', Notebook.find_tracks reply hdrs album_ids = (Notebook.Ok (), s') ∧
    Notebook.sent s' = Notebook.tracks_request hdrs <$> keys album_ids ∧
    Notebook.stdout s' =
      (λ r, Notebook.Content (Notebook.content r))
        <$> filter (λ r, Notebook.status_code r ≠ 200)
              (imap (λ i album_id, reply_for i album_id) (keys album_ids)) ∧
    wf_dict (Notebook.vars s') ∧
    (∀ tid, tid ∈ keys (Notebook.vars s') ↔
       ∃ album_id t, returned_track reply hdrs album_ids album_id t ∧
         Notebook.track_id t = tid) ∧
    (∀ tid name album_id, (tid, (name, album_id)) ∈ Notebook.vars s' →
       ∃ t, returned_track reply hdrs album_ids album_id t ∧
         Notebook.track_id t = tid ∧ Notebook.track_name t = name).
Proof.
  unfold Notebook.find_tracks.
  destruct (request_loop_total reply (Notebook.tracks_request hdrs)
              Notebook.add_tracks
              (λ _ response, Notebook.Content (Notebook.content response))
              (keys album_ids) (Notebook.Run [] [] []))
    as (s' & Hrun & Hsent & Hout).
  { intros i x d _ _. apply add_tracks_ok. }
  exists s'. split; [done|]. split; [done|]. split.
  { rewrite Hout. cbn [Notebook.stdout Notebook.sent length app].
    apply (failure_lines (λ i album_id, reply_for i album_id)). }
  pose (I := λ (n : nat) (d : dict string (string * string)),
    wf_dict d ∧
    (∀ tid, tid ∈ keys d ↔
       ∃ i album_id t, (i < n)%nat ∧ keys album_ids !! i = Some album_id ∧
         Notebook.status_code (reply_for i album_id) = 200 ∧
         t ∈ Notebook.json (reply_for i album_id) ∧
         Notebook.track_id t = tid) ∧
    (∀ tid name album_id, (tid, (name, album_id)) ∈ d →
       ∃ i t, (i < n)%nat ∧ keys album_ids !! i = Some album_id ∧
         Notebook.status_code (reply_for i album_id) = 200 ∧
         t ∈ Notebook.json (reply_for i album_id) ∧
         Notebook.track_id t = tid ∧ Notebook.track_name t = name)).
  assert (I (length (keys album_ids)) (Notebook.vars s'))
    as (Hwf & Hkeys & Hvals).
  { apply (request_loop_invariant _ _ _ _ I _ _ _ Hrun).
    - split; [apply NoDup_nil_2|]. split.
      + intros tid. split; [by intros ?%elem_of_nil|].
        intros (i & ? & ? & ? & _); lia.
      + by intros ??? ?%elem_of_nil.
    - intros i x d Hx (Hwf & Hkeys & Hvals). cbn [Notebook.sent length].
      rewrite Nat.add_0_l. cbn zeta.
      destruct (decide (Notebook.status_code (reply_for i x) = 200))
        as [H200|Hfail].
      + intros d' Hd'. split; [by eapply add_tracks_wf|]. split.
        * intros tid. rewrite (add_tracks_keys _ _ _ _ _ Hd'), Hkeys.
          split.
          -- intros [(j & aid & t & ? & ?)|(t & ? & ?)].
             ++ exists j, aid, t. split; [lia|done].
             ++ exists i, x, t. split; [lia|done].
          -- intros (j & aid & t & Hj & Hlook & Hst & Hin & Hid).
             destruct (decide (j = i)) as [->|].
             ++ right. exists t. split; [|done]. congruence.
             ++ left. exists j, aid, t. split; [lia|done].
        * intros tid name aid Hin.
          apply (add_tracks_elem _ _ _ _ _ Hd') in Hin
            as [Hin|(t & Hin & [= -> -> ->])].
          -- destruct (Hvals _ _ _ Hin) as (j & t & ? & ?).
             exists j, t. split; [lia|done].
          -- exists i, t. split; [lia|done].
      + split; [done|]. split.
        * intros tid. rewrite Hkeys. split.
          -- intros (j & aid & t & ? & ?). exists j, aid, t.
             split; [lia|done].
          -- intros (j & aid & t & Hj & Hlook & Hst & Hrest).
             exists j, aid, t. split; [|done].
             destruct (decide (j = i)) as [->|]; [congruence|lia].
        * intros tid name aid Hin.
          destruct (Hvals _ _ _ Hin) as (j & t & ? & ?).
          exists j, t. split; [lia|done]. }
  split; [done|]. split.
  - intros tid. rewrite Hkeys. unfold returned_track. split.
    + intros (i & aid & t & _ & ? & ? & ? & ?). exists aid, t.
      split; [by exists i|done].
    + intros (aid & t & (i & Hlook & ? & ?) & ?). exists i, aid, t.
      split; [|done]. by apply lookup_lt_Some in Hlook.
  - intros tid name aid Hin.
    destruct (Hvals _ _ _ Hin) as (i & t & _ & ? & ? & ? & ? & ?).
    exists t. split; [by exists i|done].
Qed.
End find_tracks.

(** X8. The tracks cell never raises: whatever the replies are, it sends
    one request per album of [album_ids], in the dictionary's order, and
    prints the content of exactly the replies whose status is not 200, in
    order; a failed album does not stop the ones after it. *)
Theorem find_tracks_total
    (reply : nat → Notebook.request
             → Notebook.response (list Notebook.track_object))
    (hdrs : list (string * string)) {A} (album_ids : dict string A) :
  ∃ s', Notebook.find_tracks reply hdrs album_ids = (Notebook.Ok (), s') ∧
    Notebook.sent s' = Notebook.tracks_request hdrs <$> keys album_ids ∧
    Notebook.stdout s' =
      (λ r, Notebook.Content (Notebook.content r))
        <$> filter (λ r, Notebook.status_code r ≠ 200)
              (imap (λ i album_id,
                       reply i (Notebook.tracks_request hdrs album_id))
                 (keys album_ids)).
Proof.
  destruct (find_tracks_spec reply hdrs album_ids)
    as (s' & Hrun & Hsent & Hout & _).
  by exists s'.
Qed.

(** X9. After the tracks cell, the keys of [tracks] are pairwise distinct
    and are exactly the ids of the track objects returned, with status 200,
    for the albums of [album_ids]. *)
Theorem find_tracks_keys
    (reply : nat → Notebook.request
             → Notebook.response (list Notebook.track_object))
    (hdrs : list (string * string)) {A} (album_ids : dict string A) :
  ∃ s', Notebook.find_tracks reply hdrs album_ids = (Notebook.Ok (), s') ∧
    wf_dict (Notebook.vars s') ∧
    ∀ tid, tid ∈ keys (Notebook.vars s') ↔
      ∃ album_id t, returned_track reply hdrs album_ids album_id t ∧
        Notebook.track_id t = tid.
Proof.
  destruct (find_tracks_spec reply hdrs album_ids)
    as (s' & Hrun & _ & _ & Hwf & Hkeys & _).
  by exists s'.
Qed.

(** X10. Every item [tid: (name, album_id)] of [tracks] after the tracks
    cell comes from a reply: [album_id] is a key of [album_ids], and the
    reply to its request had status 200 and held a track object with this
    id and this name. *)
Theorem find_tracks_values
    (reply : nat → Notebook.request
             → Notebook.response (list Notebook.track_object))
    (hdrs : list (string * string)) {A} (album_ids : dict string A)
    (tid name album_id : string) :
  (tid, (name, album_id))
    ∈ Notebook.vars (Notebook.find_tracks reply hdrs album_ids).2 →
  album_id ∈ keys album_ids ∧
  ∃ t, returned_track reply hdrs album_ids album_id t ∧
    Notebook.track_id t = tid ∧ Notebook.track_name t = name.
Proof.
  destruct (find_tracks_spec reply hdrs album_ids)
    as (s' & -> & _ & _ & _ & _ & Hvals).
  intros (t & Hret & Hid & Hname)%Hvals. split; [|by exists t].
  destruct Hret as (i & Hlook & _). by eapply list_elem_of_lookup_2.
Qed.

Lemma find_tracks_values_witness :
  "0llyIxX3nDC3hobbGibVZl"%string ∈ keys albums2 ∧
  ∃ t, returned_track tracks_reply [] albums2 "0llyIxX3nDC3hobbGibVZl" t ∧
    Notebook.track_id t = "42XnD59SFcomCJu55EPhqJ"%string ∧
    Notebook.track_name t = "Big Bidness (& Metro Boomin)"%string.
Proof.
  apply (find_tracks_values tracks_reply [] albums2).
  apply (bool_decide_unpack _). by vm_compute.
Defined.

(** ** Audio features *)

(** At the call site every batch has between 1 and 100 ids. *)
Lemma partition_dict_100_bounds {K V} (my_dict : dict K V)
    (ps : list (list K)) :
  partition_dict my_dict 100 = Return ps →
  Forall (λ p, 1 ≤ length p ≤ 100)%nat ps.
Proof.
  rewrite partition_dict_positive by lia. cbv zeta.
  change (Z.to_nat 100) with 100%nat. intros Hps.
  assert (ps = (λ k, positions (keys my_dict) (k * 100)
                       ((k * 100 + 100) `min` length (keys my_dict)))%nat
                 <$> seq 0 (ceil_quot (length (keys my_dict)) 100))
    as -> by congruence.
  apply Forall_fmap, Forall_forall. intros k Hk%elem_of_seq.
  pose proof (ceil_quot_lower (length (keys my_dict)) 100 k
                ltac:(lia) ltac:(lia)) as Hlt.
  unfold compose. rewrite positions_length by lia. lia.
Qed.

Section add_features.
Context {F : Type}.
Implicit Types (audio_features : list (option (Notebook.features_object F)))
  (track_features : dict string (Notebook.features_object F)).

Lemma add_features_ok audio_features track_features :
  None ∉ audio_features →
  ∃ track_features',
    Notebook.add_features audio_features track_features
      = (Notebook.Ok (), track_features').
Proof.
  revert track_features.
  induction audio_features as [|[o|] afs IH]; intros d Hnone.
  - by eexists.
  - cbn. apply IH. set_solver.
  - set_solver.
Qed.

Lemma add_features_null audio_features track_features :
  None ∈ audio_features →
  ∃ track_features',
    Notebook.add_features audio_features track_features
      = (Notebook.Err (Notebook.Builtin TypeError), track_features').
Proof.
  revert track_features.
  induction audio_features as [|[o|] afs IH]; intros d Hnone.
  - set_solver.
  - cbn. apply IH. set_solver.
  - by eexists.
Qed.

Lemma add_features_keys audio_features track_features (part : list string) :
  (λ o, Notebook.id <$> o) <$> audio_features = Some <$> part →
  NoDup (keys track_features ++ part) →
  ∃ track_features',
    Notebook.add_features audio_features track_features
      = (Notebook.Ok (), track_features') ∧
    keys track_features' = keys track_features ++ part.
Proof.
  revert track_features part.
  induction audio_features as [|[o|] afs IH]; intros d part Hids Hnd.
  - destruct part; [|done]. exists d. by rewrite app_nil_r.
  - destruct part as [|tid part]; [done|].
    rewrite !fmap_cons in Hids. injection Hids as Hid Hids.
    cbn [Notebook.add_features].
    assert (tid ∉ keys d) as Hnew.
    { apply NoDup_app in Hnd as (_ & Hdisj & _). intros Hin.
      apply (Hdisj _ Hin). set_solver. }
    destruct (IH (Notebook.dict_set d (Notebook.id o) o) part Hids)
      as (d' & -> & Hkeys).
    + rewrite dict_set_keys, Hid, decide_False by done.
      by rewrite <- app_assoc.
    + exists d'. split; [done|]. rewrite Hkeys.
      rewrite dict_set_keys, Hid, decide_False by done.
      by rewrite <- app_assoc.
  - destruct part; done.
Qed.
End add_features.

Section find_features.
Context {F V : Type}.
Context (reply : nat → Notebook.request
                 → Notebook.response
                     (list (option (Notebook.features_object F)))).
Context (hdrs : list (string * string)) (tracks : dict string V).

Local Abbreviation ids_request :=
  (λ part : list string,
     Notebook.Request "https://api.spotify.com/v1/audio-features" hdrs
       [("ids"%string, String.concat "," part)]).

Lemma features_request_ids (part : list string) :
  Notebook.features_request hdrs part = ids_request part.
Proof. unfold Notebook.features_request. by rewrite join_ids_concat. Qed.

(** Without a [null] in the replies the cell sends one request per batch
    of the keys. *)
Lemma find_features_sent :
  (∀ n req, None ∉ Notebook.json (reply n req)) →
  ∃ partitions s',
    partition_dict tracks 100 = Return partitions ∧
    concat partitions = keys tracks ∧
    Forall (λ part, 1 ≤ length part ≤ 100)%nat partitions ∧
    Notebook.find_features reply hdrs tracks = (Notebook.Ok (), s') ∧
    Notebook.sent s' = ids_request <$> partitions.
Proof.
  intros Hnone. unfold Notebook.find_features.
  destruct (partition_dict_100_concat tracks) as (ps & Hps & Hcat).
  rewrite Hps. exists ps.
  destruct (request_loop_total reply (Notebook.features_request hdrs)
              (λ _ audio_features track_features,
                 Notebook.add_features audio_features track_features)
              (λ _ response, Notebook.Content (Notebook.content response))
              ps (Notebook.Run [] [] []))
    as (s' & Hrun & Hsent & _).
  { intros i part d _ _. by apply add_features_ok. }
  exists s'. split; [done|]. split; [done|].
  split; [by apply (partition_dict_100_bounds tracks)|]. split; [done|].
  rewrite Hsent. cbn [Notebook.sent app]. apply list_fmap_ext.
  intros _ part _. apply features_request_ids.
Qed.
End find_features.

(** X5. If no reply holds a [null] entry, the audio-features cell ends
    without an exception after one request per batch of
    [partition_dict(tracks,100)], whatever the status codes; the [ids]
    parameter of each request is the comma-joined batch, each batch has
    between 1 and 100 ids, and the batches in order are the keys of
    [tracks]. *)
Theorem find_features_requests {F V}
    (reply : nat → Notebook.request
             → Notebook.response
                 (list (option (Notebook.features_object F))))
    (hdrs : list (string * string)) (tracks : dict string V) :
  (∀ n req, None ∉ Notebook.json (reply n req)) →
  ∃ partitions s',
    partition_dict tracks 100 = Return partitions ∧
    concat partitions = keys tracks ∧
    Forall (λ part, 1 ≤ length part ≤ 100)%nat partitions ∧
    Notebook.find_features reply hdrs tracks = (Notebook.Ok (), s') ∧
    Notebook.sent s' =
      (λ part,
         Notebook.Request "https://api.spotify.com/v1/audio-features" hdrs
           [("ids"%string, String.concat "," part)]) <$> partitions.
Proof. apply find_features_sent. Qed.

Lemma find_features_requests_witness :
  ∃ partitions s',
    partition_dict tracks3 100 = Return partitions ∧
    concat partitions = keys tracks3 ∧
    Forall (λ part, 1 ≤ length part ≤ 100)%nat partitions ∧
    Notebook.find_features features_reply [] tracks3
      = (Notebook.Ok (), s') ∧
    Notebook.sent s' =
      (λ part,
         Notebook.Request "https://api.spotify.com/v1/audio-features" []
           [("ids"%string, String.concat "," part)]) <$> partitions.
Proof.
  apply (find_features_requests features_reply [] tracks3).
  intros n req. cbn.
  repeat (apply not_elem_of_cons; split; [discriminate|]).
  apply not_elem_of_nil.
Defined.

Lemma filter_none {A} (P : A → Prop) `{!∀ x, Decision (P x)} (l : list A) :
  (∀ x, x ∈ l → ¬ P x) → filter P l = [].
Proof.
  induction l as [|a l IH]; [done|]. intros HP.
  rewrite filter_cons, decide_False, IH by set_solver. done.
Qed.

Lemma ids_without_null {F}
    (audio_features : list (option (Notebook.features_object F)))
    (part : list string) :
  (λ o, Notebook.id <$> o) <$> audio_features = Some <$> part →
  None ∉ audio_features.
Proof.
  intros Hids Hin.
  apply (list_elem_of_fmap_2 (λ o, Notebook.id <$> o)) in Hin.
  rewrite Hids in Hin. apply list_elem_of_fmap in Hin as (? & ? & _). done.
Qed.

Section find_features_replies.
Context {F V : Type}.
Context (reply : nat → Notebook.request
                 → Notebook.response
                     (list (option (Notebook.features_object F)))).
Context (hdrs : list (string * string)) (tracks : dict string V).

Lemma find_features_all :
  wf_dict tracks →
  (∀ partitions i part,
     partition_dict tracks 100 = Return partitions →
     partitions !! i = Some part →
     let r := reply i (Notebook.features_request hdrs part) in
     Notebook.status_code r = 200 ∧
     (λ o, Notebook.id <$> o) <$> Notebook.json r = Some <$> part) →
  ∃ s', Notebook.find_features reply hdrs tracks = (Notebook.Ok (), s') ∧
    keys (Notebook.vars s') = keys tracks ∧
    Notebook.stdout s' = [].
Proof.
  intros Hwf Hreply. unfold Notebook.find_features.
  destruct (partition_dict_100_concat tracks) as (ps & Hps & Hcat).
  rewrite Hps. specialize (Hreply ps). cbn zeta in Hreply.
  destruct (request_loop_total reply (Notebook.features_request hdrs)
              (λ _ audio_features track_features,
                 Notebook.add_features audio_features track_features)
              (λ _ response, Notebook.Content (Notebook.content response))
              ps (Notebook.Run [] [] []))
    as (s' & Hrun & _ & Hout).
  { intros i part d Hi _. cbn [Notebook.sent length]. rewrite Nat.add_0_l.
    destruct (Hreply i part Hps Hi) as [_ Hids].
    by eapply add_features_ok, ids_without_null. }
  exists s'. split; [done|]. split.
  - rewrite <- Hcat, <- (take_ge ps (length ps)) at 1 by done.
    apply (request_loop_invariant _ _ _ _
             (λ n d, keys d = concat (take n ps)) _ _ _ Hrun); [done|].
    intros i part d Hi Hd. cbn [Notebook.sent length].
    rewrite Nat.add_0_l. cbn zeta.
    destruct (Hreply i part Hps Hi) as [H200 Hids].
    rewrite decide_True by done. intros d' Hd'.
    rewrite (take_S_r _ _ _ Hi), concat_app. cbn [concat].
    rewrite app_nil_r, <- Hd.
    destruct (add_features_keys _ d part Hids) as (d'' & Hd'' & Hkeys).
    + rewrite Hd. unfold wf_dict in Hwf.
      rewrite <- Hcat, <- (take_drop_middle ps i part Hi) in Hwf.
      rewrite concat_app in Hwf. cbn [concat] in Hwf.
      rewrite app_assoc in Hwf. by apply NoDup_app in Hwf as [? _].
    + congruence.
  - rewrite Hout. cbn [Notebook.stdout Notebook.sent length app].
    rewrite (failure_lines (λ i part,
               reply i (Notebook.features_request hdrs part))).
    rewrite filter_none; [done|].
    intros r (i & part & -> & Hi)%elem_of_lookup_imap.
    destruct (Hreply i part Hps Hi) as [H200 _]. by intros ?.
Qed.

Lemma find_features_first_null (partitions : list (list string)) (i : nat)
    (part : list string) :
  partition_dict tracks 100 = Return partitions →
  partitions !! i = Some part →
  (∀ j p, (j < i)%nat → partitions !! j = Some p →
     None ∉ Notebook.json (reply j (Notebook.features_request hdrs p))) →
  Notebook.status_code (reply i (Notebook.features_request hdrs part))
    = 200 →
  None ∈ Notebook.json (reply i (Notebook.features_request hdrs part)) →
  ∃ s', Notebook.find_features reply hdrs tracks
        = (Notebook.Err (Notebook.Builtin TypeError), s') ∧
    Notebook.sent s'
      = Notebook.features_request hdrs <$> take (S i) partitions.
Proof.
  intros Hps Hi Hbefore H200 Hnull. unfold Notebook.find_features.
  rewrite Hps, <- (take_drop_middle partitions i part Hi).
  pose proof (lookup_lt_Some _ _ _ Hi) as Hlt.
  destruct (request_loop_raises reply (Notebook.features_request hdrs)
              (λ _ audio_features track_features,
                 Notebook.add_features audio_features track_features)
              (λ _ response, Notebook.Content (Notebook.content response))
              (take i partitions) (drop (S i) partitions) part
              (Notebook.Builtin TypeError) (Notebook.Run [] [] []))
    as (s' & Hrun & Hsent).
  - intros j p d [Hj Hlt']%lookup_take_Some _.
    cbn [Notebook.sent length]. rewrite Nat.add_0_l.
    apply add_features_ok. by apply Hbefore.
  - cbn [Notebook.sent length]. rewrite Nat.add_0_l, length_take_le by lia.
    done.
  - cbn [Notebook.sent length]. rewrite Nat.add_0_l, length_take_le by lia.
    intros d. by apply add_features_null.
  - exists s'. split; [done|]. rewrite Hsent. cbn [Notebook.sent app].
    rewrite (take_drop_middle partitions i part Hi).
    by rewrite (take_S_r _ _ _ Hi), fmap_app.
Qed.
End find_features_replies.

(** X6. If the keys of [tracks] are distinct and every batch is answered
    with status 200 and one audio-features object per requested id, in the
    order of the request, then the cell ends without an exception, prints
    nothing, and [track_features] has exactly the keys of [tracks], in the
    same order (so [len(track_features) == len(tracks)]). *)
Theorem find_features_complete {F V}
    (reply : nat → Notebook.request
             → Notebook.response
                 (list (option (Notebook.features_object F))))
    (hdrs : list (string * string)) (tracks : dict string V) :
  wf_dict tracks →
  (∀ partitions i part,
     partition_dict tracks 100 = Return partitions →
     partitions !! i = Some part →
     let r := reply i (Notebook.features_request hdrs part) in
     Notebook.status_code r = 200 ∧
     (λ o, Notebook.id <$> o) <$> Notebook.json r = Some <$> part) →
  ∃ s', Notebook.find_features reply hdrs tracks = (Notebook.Ok (), s') ∧
    keys (Notebook.vars s') = keys tracks ∧
    Notebook.stdout s' = [].
Proof. apply find_features_all. Qed.

Lemma find_features_complete_witness :
  ∃ s', Notebook.find_features features_reply [] tracks3
        = (Notebook.Ok (), s') ∧
    keys (Notebook.vars s') = keys tracks3 ∧
    Notebook.stdout s' = [].
Proof.
  apply (find_features_complete features_reply [] tracks3).
  - apply (bool_decide_unpack _). by vm_compute.
  - intros partitions i part Hps Hi. vm_compute in Hps.
    injection Hps as <-. destruct i as [|i]; [|by destruct i].
    injection Hi as <-. split; reflexivity.
Defined.

(** X7. A [null] entry in a reply of status 200 raises [TypeError]: the
    cell stops at the first batch whose reply holds one, and the batches
    after it are never requested. *)
Theorem find_features_null {F V}
    (reply : nat → Notebook.request
             → Notebook.response
                 (list (option (Notebook.features_object F))))
    (hdrs : list (string * string)) (tracks : dict string V)
    (partitions : list (list string)) (i : nat) (part : list string) :
  partition_dict tracks 100 = Return partitions →
  partitions !! i = Some part →
  (∀ j p, (j < i)%nat → partitions !! j = Some p →
     None ∉ Notebook.json (reply j (Notebook.features_request hdrs p))) →
  Notebook.status_code (reply i (Notebook.features_request hdrs part))
    = 200 →
  None ∈ Notebook.json (reply i (Notebook.features_request hdrs part)) →
  ∃ s', Notebook.find_features reply hdrs tracks
        = (Notebook.Err (Notebook.Builtin TypeError), s') ∧
    Notebook.sent s'
      = Notebook.features_request hdrs <$> take (S i) partitions.
Proof. apply find_features_first_null. Qed.

Lemma find_features_null_witness :
  ∃ s', Notebook.find_features features_reply_null [] tracks3
        = (Notebook.Err (Notebook.Builtin TypeError), s') ∧
    Notebook.sent s'
      = Notebook.features_request [] <$> take 1 [keys tracks3].
Proof.
  apply (find_features_null features_reply_null [] tracks3
           [keys tracks3] 0 (keys tracks3)).
  - by vm_compute.
  - reflexivity.
  - intros j p Hj. lia.
  - reflexivity.
  - cbn. apply list_elem_of_further, list_elem_of_here.
Defined.

(** X11. The tracks cell followed by the audio-features cell: if no
    audio-features reply holds a [null], both cells end without an
    exception, and the ids listed in the audio-features requests are
    exactly the ids of the tracks returned for the albums, each id in one
    request and only once. *)
Theorem tracks_then_features {F A}
    (reply_t : nat → Notebook.request
               → Notebook.response (list Notebook.track_object))
    (reply_f : nat → Notebook.request
               → Notebook.response
                   (list (option (Notebook.features_object F))))
    (hdrs : list (string * string)) (album_ids : dict string A) :
  (∀ n req, None ∉ Notebook.json (reply_f n req)) →
  ∃ st partitions sf,
    Notebook.find_tracks reply_t hdrs album_ids = (Notebook.Ok (), st) ∧
    Notebook.find_features reply_f hdrs (Notebook.vars st)
      = (Notebook.Ok (), sf) ∧
    Notebook.sent sf =
      (λ part,
         Notebook.Request "https://api.spotify.com/v1/audio-features" hdrs
           [("ids"%string, String.concat "," part)]) <$> partitions ∧
    NoDup (concat partitions) ∧
    ∀ tid, tid ∈ concat partitions ↔
      ∃ album_id t, returned_track reply_t hdrs album_ids album_id t ∧
        Notebook.track_id t = tid.
Proof.
  intros Hnone.
  destruct (find_tracks_spec reply_t hdrs album_ids)
    as (st & Hrun & _ & _ & Hwf & Hkeys & _).
  destruct (find_features_sent reply_f hdrs (Notebook.vars st) Hnone)
    as (ps & sf & _ & Hcat & _ & Hrunf & Hsent).
  exists st, ps, sf. rewrite Hcat. done.
Qed.

Lemma tracks_then_features_witness :
  ∃ st partitions sf,
    Notebook.find_tracks tracks_reply [] albums2 = (Notebook.Ok (), st) ∧
    Notebook.find_features features_reply [] (Notebook.vars st)
      = (Notebook.Ok (), sf) ∧
    Notebook.sent sf =
      (λ part,
         Notebook.Request "https://api.spotify.com/v1/audio-features" []
           [("ids"%string, String.concat "," part)]) <$> partitions ∧
    NoDup (concat partitions) ∧
    ∀ tid, tid ∈ concat partitions ↔
      ∃ album_id t, returned_track tracks_reply [] albums2 album_id t ∧
        Notebook.track_id t = tid.
Proof.
  apply (tracks_then_features tracks_reply features_reply [] albums2).
  intros n req. cbn.
  repeat (apply not_elem_of_cons; split; [discriminate|]).
  apply not_elem_of_nil.
Defined.

(** ** Albums *)

Lemma dict_set_fresh {K V} `{EqDecision K} (d : dict K V) (k : K) (v : V) :
  k ∉ keys d → Notebook.dict_set d k v = d ++ [(k, v)].
Proof.
  unfold keys. induction d as [|[k' v'] d IH]; [done|].
  rewrite fmap_cons. cbn [fst Notebook.dict_set app]. intros Hk.
  rewrite decide_False by set_solver. rewrite IH by set_solver. done.
Qed.

(** Assigning a value with a new name keeps the names distinct. *)
Lemma dict_set_names_NoDup {K V B} `{EqDecision K} (name : V → B)
    (d : list (K * V)) (k : K) (v : V) :
  NoDup ((λ kv, name kv.2) <$> d) →
  name v ∉ (λ kv, name kv.2) <$> d →
  NoDup ((λ kv, name kv.2) <$> Notebook.dict_set d k v).
Proof.
  induction d as [|[k' v'] d IH].
  - intros _ _. cbn. apply NoDup_singleton.
  - rewrite !fmap_cons. cbn [snd Notebook.dict_set].
    intros [Hv' Hd]%NoDup_cons Hv.
    destruct (decide (k' = k)) as [->|Hne]; rewrite fmap_cons; cbn [snd].
    + apply NoDup_cons. split; [set_solver|done].
    + apply NoDup_cons. split; [|apply IH; [done|set_solver]].
      intros (kv & Hname & [->|Hin]%dict_set_elem)%list_elem_of_fmap.
      * cbn in Hname. set_solver.
      * apply Hv'. apply list_elem_of_fmap. by exists kv.
Qed.

Section add_albums.
Implicit Types (items : list Notebook.album_object)
  (albums_list : list string) (album_ids : list (string * (string * string))).

Local Abbreviation names album_ids :=
  ((λ kv : string * (string * string), kv.2.1) <$> album_ids).

Lemma add_albums_ok items albums_list album_ids :
  Forall (λ o, Notebook.album_artists o ≠ []) items →
  ∃ album_ids' : list (string * (string * string)),
    Notebook.add_albums items albums_list album_ids
      = (Notebook.Ok (), album_ids').
Proof.
  revert albums_list album_ids.
  induction items as [|o items IH]; intros L d Hart; [by eexists|].
  apply Forall_cons in Hart as [Ho Hart]. cbn [Notebook.add_albums].
  destruct (decide (Notebook.album_name o ∈ L)); [by apply IH|].
  destruct (Notebook.album_artists o) as [|a ?]; [done|]. by apply IH.
Qed.

Lemma add_albums_elem items albums_list album_ids r album_ids'
    (kv : string * (string * string)) :
  Notebook.add_albums items albums_list album_ids = (r, album_ids') →
  kv ∈ album_ids' →
  kv ∈ album_ids ∨
  ∃ o a, o ∈ items ∧ head (Notebook.album_artists o) = Some a ∧
    kv = (Notebook.album_id o, (Notebook.album_name o, a)).
Proof.
  revert albums_list album_ids.
  induction items as [|o items IH]; intros L d.
  { intros [= _ <-]. by left. }
  cbn [Notebook.add_albums].
  assert (∀ L' d', Notebook.add_albums items L' d' = (r, album_ids') →
    kv ∈ album_ids' → kv ∈ d' ∨
    ∃ o' a, o' ∈ o :: items ∧ head (Notebook.album_artists o') = Some a ∧
      kv = (Notebook.album_id o', (Notebook.album_name o', a))) as IH'.
  { intros L' d' Hrun Hin. destruct (IH L' d' Hrun Hin) as [?|(o' & a & ? & ?)];
      [by left|]. right. exists o', a. set_solver. }
  destruct (decide (Notebook.album_name o ∈ L)); [apply IH'|].
  destruct (Notebook.album_artists o) as [|a arts] eqn:Harts.
  { intros [= _ <-]. by left. }
  intros Hrun Hin. destruct (IH' _ _ Hrun Hin) as [[->|?]%dict_set_elem|?].
  - right. exists o, a. rewrite Harts. set_solver.
  - by left.
  - by right.
Qed.

Lemma add_albums_names_NoDup items albums_list album_ids r album_ids' :
  Notebook.add_albums items albums_list album_ids = (r, album_ids') →
  NoDup (names album_ids) → names album_ids ⊆ albums_list →
  NoDup (names album_ids').
Proof.
  revert albums_list album_ids.
  induction items as [|o items IH]; intros L d.
  { by intros [= _ <-]. }
  cbn [Notebook.add_albums].
  destruct (decide (Notebook.album_name o ∈ L)) as [|Hnew]; [apply IH|].
  destruct (Notebook.album_artists o) as [|a arts].
  { by intros [= _ <-]. }
  intros Hrun Hnd Hsub. apply (IH _ _ Hrun).
  - apply (dict_set_names_NoDup fst); [done|]. set_solver.
  - intros n (kv & -> & [->|Hin]%dict_set_elem)%list_elem_of_fmap.
    + set_solver.
    + apply elem_of_app. left. apply Hsub, list_elem_of_fmap. by exists kv.
Qed.

Lemma add_albums_cover items albums_list album_ids album_ids' :
  Notebook.add_albums items albums_list album_ids
    = (Notebook.Ok (), album_ids') →
  NoDup (keys album_ids ++ (Notebook.album_id <$> items)) →
  names album_ids ⊆ names album_ids' ∧
  ∀ o, o ∈ items →
    Notebook.album_name o ∈ albums_list ∨
    Notebook.album_name o ∈ names album_ids'.
Proof.
  revert albums_list album_ids.
  induction items as [|o items IH]; intros L d.
  { intros [= <-] _. set_solver. }
  cbn [Notebook.add_albums]. rewrite fmap_cons.
  intros Hrun Hnd.
  assert (NoDup (keys d ++ (Notebook.album_id <$> items))) as Hnd'.
  { apply NoDup_app in Hnd as (? & Hdisj & [_ ?]%NoDup_cons).
    apply NoDup_app. set_solver. }
  destruct (decide (Notebook.album_name o ∈ L)) as [Hold|Hnew].
  { destruct (IH _ _ Hrun Hnd') as [Hsub Hcov]. split; [done|].
    intros o' [->|Hin]%elem_of_cons; [by left|by apply Hcov]. }
  destruct (Notebook.album_artists o) as [|a arts]; [done|].
  assert (Notebook.album_id o ∉ keys d) as Hfresh.
  { apply NoDup_app in Hnd as (_ & Hdisj & _). intros Hin.
    apply (Hdisj _ Hin). set_solver. }
  rewrite dict_set_fresh in Hrun by done.
  destruct (IH _ _ Hrun) as [Hsub Hcov].
  { unfold keys. rewrite fmap_app, <- app_assoc. done. }
  rewrite fmap_app in Hsub. split; [set_solver|].
  intros o' [->|Hin]%elem_of_cons.
  - right. apply Hsub. set_solver.
  - destruct (Hcov o' Hin) as [[?| ->%list_elem_of_singleton]%elem_of_app|?].
    + by left.
    + right. apply Hsub. set_solver.
    + by right.
Qed.
End add_albums.

(** X12. For the albums of one reply, each with at least one artist, put
    into an empty [album_ids]: the loop raises nothing, no two items of
    [album_ids] carry the same album name, every item is the id, name and
    first artist of an album of the reply, and when the ids of the reply are
    distinct every album name of the reply is recorded. *)
Theorem add_albums_distinct_names (items : list Notebook.album_object) :
  Forall (λ o, Notebook.album_artists o ≠ []) items →
  ∃ album_ids' : list (string * (string * string)),
    Notebook.add_albums items [] [] = (Notebook.Ok (), album_ids') ∧
    NoDup ((λ kv, kv.2.1) <$> album_ids') ∧
    (∀ kv, kv ∈ album_ids' →
       ∃ o a, o ∈ items ∧ head (Notebook.album_artists o) = Some a ∧
         kv = (Notebook.album_id o, (Notebook.album_name o, a))) ∧
    (NoDup (Notebook.album_id <$> items) →
     ∀ o, o ∈ items →
       Notebook.album_name o ∈ (λ kv, kv.2.1) <$> album_ids').
Proof.
  intros Hart. destruct (add_albums_ok items [] [] Hart) as [d' Hrun].
  exists d'. split; [done|]. split; [|split].
  - apply (add_albums_names_NoDup _ _ _ _ _ Hrun); [apply NoDup_nil_2|done].
  - intros kv Hin.
    destruct (add_albums_elem _ _ _ _ _ _ Hrun Hin) as [?%elem_of_nil|?];
      done.
  - intros Hnd o Hin.
    destruct (add_albums_cover _ _ _ _ Hrun Hnd) as [_ Hcov].
    destruct (Hcov o Hin) as [?%elem_of_nil|?]; done.
Qed.

Lemma add_albums_distinct_names_witness :
  ∃ album_ids' : list (string * (string * string)),
    Notebook.add_albums album_items [] [] = (Notebook.Ok (), album_ids') ∧
    NoDup ((λ kv, kv.2.1) <$> album_ids') ∧
    (∀ kv, kv ∈ album_ids' →
       ∃ o a, o ∈ album_items ∧
         head (Notebook.album_artists o) = Some a ∧
         kv = (Notebook.album_id o, (Notebook.album_name o, a))) ∧
    (NoDup (Notebook.album_id <$> album_items) →
     ∀ o, o ∈ album_items →
       Notebook.album_name o ∈ (λ kv, kv.2.1) <$> album_ids').
Proof.
  apply (add_albums_distinct_names album_items).
  repeat (apply Forall_cons; split; [discriminate|]). apply Forall_nil_2.
Defined.

(** ** Artists *)

(** X13. A search answered with status 200 and no item raises
    [IndexError]: the cell stops there, the failure message is not what
    reports it, and the artists after it are never searched. *)
Theorem find_artists_no_match (lower : string → string)
    (reply : nat → Notebook.request
             → Notebook.response (list Notebook.artist_object))
    (hdrs : list (string * string)) (pre post : list string)
    (artist : string) :
  (∀ i a, pre !! i = Some a →
     Notebook.status_code (reply i (Notebook.search_request hdrs a)) = 200 →
     Notebook.json (reply i (Notebook.search_request hdrs a)) ≠ []) →
  Notebook.status_code
    (reply (length pre) (Notebook.search_request hdrs artist)) = 200 →
  Notebook.json
    (reply (length pre) (Notebook.search_request hdrs artist)) = [] →
  ∃ s', Notebook.find_artists lower reply hdrs (pre ++ artist :: post)
        = (Notebook.Err Notebook.IndexError, s') ∧
    Notebook.sent s' = Notebook.search_request hdrs <$> (pre ++ [artist]).
Proof.
  intros Hpre H200 Hempty. unfold Notebook.find_artists.
  destruct (request_loop_raises reply (Notebook.search_request hdrs)
              (Notebook.first_artist lower)
              (λ artist _, Notebook.SearchFailedFor artist)
              pre post artist Notebook.IndexError (Notebook.Run [] [] []))
    as (s' & Hrun & Hsent).
  - intros i a d Hi Hst. cbn [Notebook.sent length] in *.
    rewrite Nat.add_0_l in *. specialize (Hpre i a Hi Hst).
    unfold Notebook.first_artist.
    destruct (Notebook.json _) as [|item ?]; [done|]. by eexists.
  - done.
  - intros d. cbn [Notebook.sent length]. rewrite Nat.add_0_l, Hempty.
    by eexists.
  - exists s'. split; [done|]. rewrite Hsent. by rewrite fmap_app.
Qed.

Lemma find_artists_no_match_witness :
  ∃ s', Notebook.find_artists id search_reply []
          (["big sean"%string]
             ++ "isaiah rashad"%string :: ["kendrick lamar"%string])
        = (Notebook.Err Notebook.IndexError, s') ∧
    Notebook.sent s' =
      Notebook.search_request []
        <$> (["big sean"%string] ++ ["isaiah rashad"%string]).
Proof.
  apply (find_artists_no_match id search_reply []
           ["big sean"%string] ["kendrick lamar"%string]
           "isaiah rashad"%string).
  - intros i a Hi _. destruct i as [|i]; [|by destruct i].
    cbn. discriminate.
  - reflexivity.
  - reflexivity.
Defined.
